(** * Particle field (index.js): population sizing, particle physics,
      cursor state and the grid-bucketed proximity linker.

    Numbers.  JavaScript numbers are modelled exactly: canvas dimensions
    are integers ([Z]); particle coordinates, velocities, sizes and
    opacities are rationals ([Q]), i.e. the arithmetic of the source
    without rounding.  [Math.sqrt] has no rational counterpart and is a
    parameter [sqrt : Q -> Q] of the sections that call it; the
    properties of the square root that a result depends on are stated as
    section hypotheses.  [Math.cos], [Math.sin] and [Math.PI] only occur
    in the constructor, which is stated over the real numbers. *)

From Stdlib Require Import ZArith QArith Qround Lia List Bool Ascii.
From Stdlib Require Import Reals Psatz.
From stdpp Require Import base option list strings pretty gmap.

Close Scope R_scope.
Close Scope Q_scope.

(* ===================================================================== *)
(** * Population manager: [adjustParticleCount]                          *)
(* ===================================================================== *)

Module Population.
Local Open Scope Z_scope.

(** The [canvas] object, as far as the program reads it. *)
Record Canvas := mkCanvas { width : Z; height : Z }.

Record ParticleConfig := mkConfig {
  heightConditions   : list Z;
  widthConditions    : list Z;
  particlesForHeight : list Z;
  particlesForWidth  : list Z
}.

Definition particleConfig : ParticleConfig := {|
  heightConditions   := [200; 300; 400; 500; 600];
  widthConditions    := [450; 600; 900; 1200; 1600];
  particlesForHeight := [40; 60; 70; 90; 110];
  particlesForWidth  := [40; 50; 70; 90; 110]
|}.

(** [for (i = 0; i < conds.length; i++) if (v < conds[i]) { found i; break }]:
    the index of the first threshold that [v] is strictly below.
    Both loops of [adjustParticleCount] have this shape. *)
Fixpoint firstBelow (v : Z) (conds : list Z) (i : nat) : option nat :=
  match conds with
  | [] => None
  | c :: rest => if v <? c then Some i else firstBelow v rest (S i)
  end.

(** [arr[i]] on an array of numbers; the two tables have as many entries
    as their threshold arrays, so the default is never read. *)
Definition at_index (arr : list Z) (i : nat) : Z := nth i arr 0.

Definition adjustParticleCount (canvas : Canvas) : Z :=
  let numParticles := 130 in
  let numParticles :=
    match firstBelow (height canvas) (heightConditions particleConfig) 0 with
    | Some i => at_index (particlesForHeight particleConfig) i
    | None => numParticles
    end in
  let numParticles :=
    match firstBelow (width canvas) (widthConditions particleConfig) 0 with
    | Some i => Z.min numParticles (at_index (particlesForWidth particleConfig) i)
    | None => numParticles
    end in
  numParticles.

(** The two tables as the specification words them. *)
Definition heightCandidate (h : Z) : Z :=
  if h <? 200 then 40 else if h <? 300 then 60 else if h <? 400 then 70
  else if h <? 500 then 90 else if h <? 600 then 110 else 130.

Definition widthClamp (w n : Z) : Z :=
  if w <? 450 then Z.min n 40 else if w <? 600 then Z.min n 50
  else if w <? 900 then Z.min n 70 else if w <? 1200 then Z.min n 90
  else if w <? 1600 then Z.min n 110 else n.

End Population.

(* ===================================================================== *)
(** * Cursor state: the [mouse] accessor object and its two handlers     *)
(* ===================================================================== *)

Module Mouse.

(** The closure variable [state]; [null] is [None]. *)
Record State := mkState { x : option Q; y : option Q }.

(** [let state = { x: null, y: null }] *)
Definition initial : State := {| x := None; y := None |}.

(** [set({ x, y }) { state = { x, y }; }]: the argument is any object;
    its two properties become the new state together. *)
Definition set (arg : State) (state : State) : State :=
  {| x := x arg; y := y arg |}.

(** [reset() { state = { x: null, y: null }; }] *)
Definition reset (state : State) : State := {| x := None; y := None |}.

(** The events the canvas listens to; [clientX]/[clientY] of a
    [MouseEvent] are numbers. *)
Inductive Event :=
| mousemove (clientX clientY : Q)
| mouseleave.

(** The registered listeners. *)
Definition handle (e : Event) (state : State) : State :=
  match e with
  | mousemove clientX clientY =>
      set {| x := Some clientX; y := Some clientY |} state
  | mouseleave => reset state
  end.

(** Events are delivered one at a time, between frames. *)
Definition deliver (es : list Event) (state : State) : State :=
  fold_left (fun st e => handle e st) es state.

(** Both coordinates present or both absent. *)
Definition paired (st : State) : Prop := x st = None <-> y st = None.

(** What the update model asks of the cursor. *)
Definition isNull (v : option Q) : bool :=
  match v with None => true | Some _ => false end.

(** [ToNumber] on a coordinate: [null] converts to [0] in arithmetic. *)
Definition toNumber (v : option Q) : Q :=
  match v with Some q => q | None => 0%Q end.

End Mouse.

(* ===================================================================== *)
(** * The particle entity and its [update] step                          *)
(* ===================================================================== *)

Module Physics.
Import Population.
Local Open Scope Q_scope.

(** The fields [Object.assign] gives a particle, in the source's order.
    The number type is a parameter: rationals for [update], reals for
    the constructor. *)
Record Particle (num : Type) := mkParticle {
  isFirework    : bool;
  x             : num;
  y             : num;
  vx            : num;
  vy            : num;
  size          : num;
  gray          : num;
  alpha         : num;
  sizeDirection : num;
  trail         : list num
}.
Arguments mkParticle {num}.
Arguments isFirework {num}.
Arguments x {num}.
Arguments y {num}.
Arguments vx {num}.
Arguments vy {num}.
Arguments size {num}.
Arguments gray {num}.
Arguments alpha {num}.
Arguments sizeDirection {num}.
Arguments trail {num}.

(** Assignments to one field of [this]. *)
Definition set_x {num} (v : num) (p : Particle num) : Particle num :=
  mkParticle (isFirework p) v (y p) (vx p) (vy p) (size p) (gray p)
             (alpha p) (sizeDirection p) (trail p).
Definition set_y {num} (v : num) (p : Particle num) : Particle num :=
  mkParticle (isFirework p) (x p) v (vx p) (vy p) (size p) (gray p)
             (alpha p) (sizeDirection p) (trail p).
Definition set_vx {num} (v : num) (p : Particle num) : Particle num :=
  mkParticle (isFirework p) (x p) (y p) v (vy p) (size p) (gray p)
             (alpha p) (sizeDirection p) (trail p).
Definition set_vy {num} (v : num) (p : Particle num) : Particle num :=
  mkParticle (isFirework p) (x p) (y p) (vx p) v (size p) (gray p)
             (alpha p) (sizeDirection p) (trail p).
Definition set_size {num} (v : num) (p : Particle num) : Particle num :=
  mkParticle (isFirework p) (x p) (y p) (vx p) (vy p) v (gray p)
             (alpha p) (sizeDirection p) (trail p).
Definition set_alpha {num} (v : num) (p : Particle num) : Particle num :=
  mkParticle (isFirework p) (x p) (y p) (vx p) (vy p) (size p) (gray p)
             v (sizeDirection p) (trail p).
Definition set_sizeDirection {num} (v : num) (p : Particle num)
  : Particle num :=
  mkParticle (isFirework p) (x p) (y p) (vx p) (vy p) (size p) (gray p)
             (alpha p) v (trail p).

(** What [update] reads besides [this] and its argument: the canvas, the
    global [autoDrift] and the sequence of values [Math.random()] returns
    ([random n] is the value of the [n]-th call). *)
Record World := mkWorld {
  canvas    : Canvas;
  autoDrift : bool;
  random    : nat -> Q
}.

(** Computations that call [Math.random()] and divide.  The state is the
    number of [Math.random()] calls made so far; a division whose divisor
    is zero has no rational result and ends the computation with [None]. *)
Definition M (A : Type) : Type := nat -> option (A * nat).

Definition ret {A} (a : A) : M A := fun n => Some (a, n).

Definition bind {A B} (m : M A) (k : A -> M B) : M B :=
  fun n => match m n with
           | Some (a, n') => k a n'
           | None => None
           end.

Notation "'do' a <- m ; k" := (bind m (fun a => k))
  (at level 10, a name, m at level 100, k at level 200).

Definition mathRandom (w : World) : M Q := fun n => Some (random w n, S n).

Definition divide (a b : Q) : M Q :=
  fun n => if Qeq_bool b 0 then None else Some (a / b, n).

(** [m], started after [n] draws, returns a value that satisfies
    [post]. *)
Definition returns {A} (m : M A) (n : nat) (post : A -> Prop) : Prop :=
  exists a n', m n = Some (a, n') /\ post a.

(** Comparisons and truthiness of numbers. *)
Definition ltb (a b : Q) : bool := negb (Qle_bool b a).
Definition leb (a b : Q) : bool := Qle_bool a b.
Definition truthy (a : Q) : bool := negb (Qeq_bool a 0).

Section WithSqrt.
Variable sqrt : Q -> Q.

(** [const dist = mouse.x !== null
       ? (mouse.x - this.x) ** 2 + (mouse.y - this.y) ** 2 : 0] *)
Definition cursorDist (mouse : Mouse.State) (this : Particle Q) : Q :=
  if negb (Mouse.isNull (Mouse.x mouse))
  then (Mouse.toNumber (Mouse.x mouse) - x this) ^ 2
       + (Mouse.toNumber (Mouse.y mouse) - y this) ^ 2
  else 0.

(** The ambient branch, [if (!this.isFirework) { ... }]. *)
Definition ambientStep (w : World) (mouse : Mouse.State) (dist : Q)
    (this : Particle Q) : M (Particle Q) :=
  do force <- (if truthy dist && ltb dist 22500
               then divide (22500 - dist) 22500 else ret 0);
  do this <- (if Mouse.isNull (Mouse.x mouse) && autoDrift w
              then do r1 <- mathRandom w;
                   let this := set_vx (vx this + (r1 - 0.5) * 0.03) this in
                   do r2 <- mathRandom w;
                   ret (set_vy (vy this + (r2 - 0.5) * 0.03) this)
              else ret this);
  do this <- (if truthy dist
              then let sqrtDist := sqrt dist in
                   do ux <- divide (Mouse.toNumber (Mouse.x mouse) - x this)
                                   sqrtDist;
                   let this := set_vx (vx this + ux * force * 0.1) this in
                   do uy <- divide (Mouse.toNumber (Mouse.y mouse) - y this)
                                   sqrtDist;
                   ret (set_vy (vy this + uy * force * 0.1) this)
              else ret this);
  let this :=
    set_vx (vx this * (if negb (Mouse.isNull (Mouse.x mouse))
                       then 0.99 else 0.998)) this in
  let this :=
    set_vy (vy this * (if negb (Mouse.isNull (Mouse.y mouse))
                       then 0.99 else 0.998)) this in
  ret this.

(** The firework branch, [else { this.alpha -= 0.02; }]. *)
Definition fireworkStep (this : Particle Q) : Particle Q :=
  set_alpha (alpha this - 0.02) this.

(** [this.x += this.vx; this.y += this.vy;] *)
Definition integrate (this : Particle Q) : Particle Q :=
  let this := set_x (x this + vx this) this in
  set_y (y this + vy this) this.

(** [if (this.x <= 0 || this.x >= canvas.width - 1) this.vx *= -0.9;
     if (this.y < 0 || this.y > canvas.height) this.vy *= -0.9;] *)
Definition bounce (w : World) (this : Particle Q) : Particle Q :=
  let this :=
    if leb (x this) 0 || leb (inject_Z (width (canvas w)) - 1) (x this)
    then set_vx (vx this * -0.9) this else this in
  if ltb (y this) 0 || ltb (inject_Z (height (canvas w))) (y this)
  then set_vy (vy this * -0.9) this else this.

(** [this.size += this.sizeDirection * 0.1;
     if (this.size > 4 || this.size < 1) this.sizeDirection *= -1;] *)
Definition pulse (this : Particle Q) : Particle Q :=
  let this := set_size (size this + sizeDirection this * 0.1) this in
  if ltb 4 (size this) || ltb (size this) 1
  then set_sizeDirection (sizeDirection this * -1) this else this.

Definition update (w : World) (mouse : Mouse.State) (this : Particle Q)
  : M (Particle Q) :=
  let dist := cursorDist mouse this in
  do this <- (if negb (isFirework this)
              then ambientStep w mouse dist this
              else ret (fireworkStep this));
  let this := integrate this in
  let this := bounce w this in
  let this := pulse this in
  ret this.

(** The tail of [update] that both branches share. *)
Definition finish (w : World) (q : Particle Q) : Particle Q :=
  pulse (bounce w (integrate q)).

(** [return this.isFirework && this.alpha <= 0;] *)
Definition isDead (this : Particle Q) : bool :=
  isFirework this && leb (alpha this) 0.

(** [q] differs from [p] in its velocity at most. *)
Definition sameButVelocity (p q : Particle Q) : Prop :=
  isFirework q = isFirework p /\ x q = x p /\ y q = y p
  /\ size q = size p /\ gray q = gray p /\ alpha q = alpha p
  /\ sizeDirection q = sizeDirection p /\ trail q = trail p.

(** The size is within one step of [[1, 4]], the direction is a unit, and
    outside [[1, 4]] the direction points back inside. *)
Definition pulsing (p : Particle Q) : Prop :=
  (sizeDirection p == 1 \/ sizeDirection p == -1)
  /\ 0.9 <= size p <= 4.1
  /\ (4 < size p -> sizeDirection p == -1)
  /\ (size p < 1 -> sizeDirection p == 1).

(** One [update] call as the frame driver makes it: the cursor state of
    that frame and the number of [Math.random()] calls made before it. *)
Record Call := mkCall { cursor : Mouse.State; drawn : nat }.

(** The successive [update] calls one particle receives. *)
Fixpoint updates (w : World) (calls : list Call) (this : Particle Q)
  : option (Particle Q) :=
  match calls with
  | [] => Some this
  | c :: rest =>
      match update w (cursor c) this (drawn c) with
      | Some (this', _) => updates w rest this'
      | None => None
      end
  end.

End WithSqrt.

(** Sample inputs: an 800 x 600 canvas with drift on and every
    [Math.random()] equal to 0.5 (no jitter); an [update] call with the
    cursor absent; one with the cursor at [(cx, cy)]. *)
Definition idleWorld : World :=
  mkWorld (mkCanvas 800 600) true (fun _ => 0.5).

Definition cursorAbsent : Call := mkCall Mouse.initial 0.

Definition cursorAt (cx cy : Q) : Call :=
  mkCall (Mouse.mkState (Some cx) (Some cy)) 0.

(** An ambient particle in the middle of the canvas, at rest. *)
Definition ambient (size sizeDirection : Q) : Particle Q :=
  mkParticle false 400 300 0 0 size 128 1 sizeDirection [].

(** An ambient particle that falls onto the top edge in one step. *)
Definition falling : Particle Q :=
  mkParticle false 400 9.98 0 (-10) 2 128 1 1 [].

(** Ambient particles at a speed of 0.5, within what the constructor
    gives, that land exactly on an edge line in one idle step (the
    damped velocity is 0.499): on [y = 0], on [y = height], on [x = 0]
    and on [x = width - 1] of the 800 x 600 canvas. *)
Definition landsOnTop : Particle Q :=
  mkParticle false 400 0.499 0 (-0.5) 2 128 1 1 [].

Definition landsOnBottom : Particle Q :=
  mkParticle false 400 599.501 0 0.5 2 128 1 1 [].

Definition landsOnLeft : Particle Q :=
  mkParticle false 0.499 300 (-0.5) 0 2 128 1 1 [].

Definition landsOnRight : Particle Q :=
  mkParticle false 798.501 300 0.5 0 2 128 1 1 [].

(** A firework particle as the constructor would start it. *)
Definition spark : Particle Q :=
  mkParticle true 400 300 1 1 3 128 1 1 [].

(** A computable square root on the rationals that is exact on squares
    (the integer square root of numerator times denominator, over the
    denominator), to run the model on concrete inputs. *)
Definition Qsqrt (q : Q) : Q :=
  Z.sqrt (Qnum q * Z.pos (Qden q)) # Qden q.

End Physics.

(* ===================================================================== *)
(** * Proximity linker: [connectParticles]                               *)
(* ===================================================================== *)

Module Linker.
Import Physics.
Local Open Scope Q_scope.

(** A reference to an element of the [particles] array: its index, which
    is what [!==] compares, together with the object it points to
    (positions do not change while the linker runs). *)
Definition Ref : Type := nat * Particle Q.

Definition refs (particles : list (Particle Q)) : list Ref :=
  imap (fun i p => (i, p)) particles.

Definition same (a b : Ref) : bool := Nat.eqb (fst a) (fst b).

Definition gridSize : Q := 120.

(** [Math.floor(v / gridSize)] *)
Definition cellOf (v : Q) : Z := Qfloor (v / gridSize).

(** The template string [`${cx},${cy}`]. *)
Definition cellKey (cx cy : Z) : string :=
  pretty cx +:+ "," +:+ pretty cy.

(** First pass, per particle:
    [if (!grid.has(key)) grid.set(key, []); grid.get(key).push(p);] *)
Definition addToGrid (grid : gmap string (list Ref)) (p : Ref)
  : gmap string (list Ref) :=
  let key := cellKey (cellOf (x (snd p))) (cellOf (y (snd p))) in
  let grid := match grid !! key with
              | Some _ => grid
              | None => <[key := []]> grid
              end in
  alter (fun bucket => bucket ++ [p]) key grid.

Definition buildGrid (rs : list Ref) : gmap string (list Ref) :=
  fold_left addToGrid rs ∅.

(** One stroked segment: [strokeStyle = rgba(200, 200, 200, strokeAlpha)],
    [moveTo] the source, [lineTo] the target, [stroke()]. *)
Record Stroke := mkStroke {
  source      : Ref;
  target      : Ref;
  strokeAlpha : Q
}.

Definition sqDist (p neighbor : Ref) : Q :=
  let diffX := x (snd neighbor) - x (snd p) in
  let diffY := y (snd neighbor) - y (snd p) in
  diffX * diffX + diffY * diffY.

Definition offsets : list Z := [-1; 0; 1]%Z.

Section WithSqrt.
Variable sqrt : Q -> Q.

(** The body of the innermost [forEach]: what examining [neighbor] from
    [p] draws. *)
Definition examine (p neighbor : Ref) : list Stroke :=
  if negb (same neighbor p)
  then let dist := sqDist p neighbor in
       if ltb dist 10000
       then [mkStroke p neighbor (1 - sqrt dist / 100)]
       else []
  else [].

(** The two [for] loops over [dx] and [dy] for one particle. *)
Definition scanAround (grid : gmap string (list Ref)) (p : Ref)
  : list Stroke :=
  let gridX := cellOf (x (snd p)) in
  let gridY := cellOf (y (snd p)) in
  flat_map (fun dx =>
    flat_map (fun dy =>
      match grid !! cellKey (gridX + dx) (gridY + dy) with
      | Some bucket => flat_map (examine p) bucket
      | None => []
      end) offsets) offsets.

(** The strokes of one [connectParticles()] call, in drawing order. *)
Definition connectParticles (particles : list (Particle Q)) : list Stroke :=
  let grid := buildGrid (refs particles) in
  flat_map (scanAround grid) (refs particles).

(** The naive linker the specification compares with: every particle
    examines every particle. *)
Definition connectAllPairs (particles : list (Particle Q)) : list Stroke :=
  flat_map (fun p => flat_map (examine p) (refs particles)) (refs particles).

(** How often the segment from particle [i] to particle [j] is stroked. *)
Definition strokesFromTo (i j : nat) (strokes : list Stroke) : nat :=
  length (List.filter (fun s => Nat.eqb (fst (source s)) i
                                && Nat.eqb (fst (target s)) j) strokes).

End WithSqrt.

(** Notions for the statements: the cell of a particle as a pair, the
    nine cells the two [for] loops look up around a cell, in visiting
    order, the particles of a list that lie in a cell, and strings
    without a comma. *)
Definition cellOfRef (r : Ref) : Z * Z :=
  (cellOf (x (snd r)), cellOf (y (snd r))).

Definition neighbourhood (c : Z * Z) : list (Z * Z) :=
  flat_map (fun dx => map (fun dy => (fst c + dx, snd c + dy)%Z) offsets)
           offsets.

Definition inCell (c : Z * Z) (r : Ref) : bool :=
  Z.eqb (fst (cellOfRef r)) (fst c) && Z.eqb (snd (cellOfRef r)) (snd c).

Definition bucketOf (rs : list Ref) (c : Z * Z) : list Ref :=
  List.filter (inCell c) rs.

Fixpoint commaFree (s : string) : bool :=
  match s with
  | EmptyString => true
  | String a rest => negb (Ascii.eqb a ","%char) && commaFree rest
  end.

(** A particle at rest at [(px, py)]; only the position matters here. *)
Definition pointAt (px py : Q) : Particle Q :=
  mkParticle false px py 0 0 1 0 1 1 [].

End Linker.

(* ===================================================================== *)
(** * The constructor, over the reals                                    *)
(* ===================================================================== *)

Module Construction.
Import Physics.
Local Open Scope R_scope.

(** [new Particle(x, y, isFirework)], started after [n] calls of
    [Math.random()], whose [k]-th value is [random k].  The calls are
    made in the order of the source text: [baseSpeed], the angle of
    [vx], the angle of [vy], [size], [gray], [sizeDirection]. *)
Definition construct (random : nat -> R) (x y : R) (isFirework : bool)
    (n : nat) : Particle R * nat :=
  let baseSpeed :=
    if isFirework then random n * 2 + 1 else random n * 0.5 + 0.3 in
  let n := S n in
  let vx := cos (random n * PI * 2) * baseSpeed in
  let n := S n in
  let vy := sin (random n * PI * 2) * baseSpeed in
  let n := S n in
  let size :=
    if isFirework then random n * 2 + 2 else random n * 3 + 1 in
  let n := S n in
  let gray := random n * 255 in
  let n := S n in
  let sizeDirection := if Rlt_dec (random n) 0.5 then -1 else 1 in
  let n := S n in
  (mkParticle isFirework x y vx vy size gray 1 sizeDirection [], n).

(** [baseSpeed] of an ambient particle, as a function of its draw. *)
Definition ambientSpeed (u : R) : R := u * 0.5 + 0.3.

(** The sequence of draws that starts [u0, u1, u2, ...] and is [0]
    afterwards. *)
Definition drawsOf (us : list R) : nat -> R := fun k => nth k us 0.

End Construction.

(* ===================================================================== *)
(** * The rest of the program: construction over the rationals, the
      population, painting, the frame driver and the event handlers      *)
(* ===================================================================== *)

Module Driver.
Import Population Physics Linker.
Local Open Scope Q_scope.

(** What the program sends to the 2D context, in order.  [background] is
    [drawBackground()]: a vertical black-to-darkgray gradient filled over
    [0, 0, width, height].  [circle] is one [Particle.draw]: the fill
    [rgba(gray, gray, gray, opacity)] and a full arc ([0] to
    [Math.PI * 2]) of the given radius around [(cx, cy)].  [line] is one
    stroked segment of [connectParticles]. *)
Inductive Command :=
| background (width height : Z)
| circle (gray opacity cx cy radius : Q)
| line (s : Stroke).

(** [Math.max(a, b)] *)
Definition mathMax (a b : Q) : Q := if ltb a b then b else a.

(** [draw(ctx)] *)
Definition draw (this : Particle Q) : Command :=
  circle (gray this) (mathMax (alpha this) 0) (x this) (y this) (size this).

(** [drawBackground()] *)
Definition drawBackground (w : World) : Command :=
  background (width (canvas w)) (height (canvas w)).

(** The process-wide state that the code of this file changes: the
    canvas size (inside [world], with [autoDrift] and the values of
    [Math.random()]), the [particles] array, the cursor, [frameCount]
    and the number of [Math.random()] calls made so far. *)
Record Program := mkProgram {
  world       : World;
  particles   : list (Particle Q);
  mouse       : Mouse.State;
  frameCount  : nat;
  randomCalls : nat
}.

Section WithFunctions.
Variables sqrt cos sin : Q -> Q.
Variable PI : Q.

(** [new Particle(x, y, isFirework)] over the rationals, with [Math.cos],
    [Math.sin] and [Math.PI] as parameters; one [Math.random()] call per
    occurrence in the source, in the order of the text. *)
Definition newParticle (w : World) (px py : Q) (isFirework : bool)
  : M (Particle Q) :=
  do u <- mathRandom w;
  let baseSpeed := if isFirework then u * 2 + 1 else u * 0.5 + 0.3 in
  do a <- mathRandom w;
  let vx := cos (a * PI * 2) * baseSpeed in
  do b <- mathRandom w;
  let vy := sin (b * PI * 2) * baseSpeed in
  do s <- mathRandom w;
  let size := if isFirework then s * 2 + 2 else s * 3 + 1 in
  do g <- mathRandom w;
  let gray := g * 255 in
  do d <- mathRandom w;
  let sizeDirection := if ltb d 0.5 then -1 else 1 in
  ret (mkParticle isFirework px py vx vy size gray 1 sizeDirection []).

(** [for (let i = 0; i < numParticles; i++)
       particles.push(new Particle(Math.random() * canvas.width,
                                   Math.random() * canvas.height));]
    with [n] iterations left. *)
Fixpoint pushParticles (w : World) (n : nat) (particles : list (Particle Q))
  : M (list (Particle Q)) :=
  match n with
  | O => ret particles
  | S k =>
      do rx <- mathRandom w;
      do ry <- mathRandom w;
      do p <- newParticle w (rx * inject_Z (width (canvas w)))
                            (ry * inject_Z (height (canvas w))) false;
      pushParticles w k (particles ++ [p])
  end.

(** [createParticles()] *)
Definition createParticles (w : World) (particles : list (Particle Q))
  : M (list (Particle Q)) :=
  let particles := @nil (Particle Q) in
  let numParticles := adjustParticleCount (canvas w) in
  pushParticles w (Z.to_nat numParticles) particles.

(** [resizeCanvas()], with the window's [innerWidth] and [innerHeight]. *)
Definition resizeCanvas (innerWidth innerHeight : Z) (st : Program)
  : option Program :=
  let w := mkWorld (mkCanvas innerWidth innerHeight)
                   (autoDrift (world st)) (random (world st)) in
  match createParticles w (particles st) (randomCalls st) with
  | Some (ps, n) => Some (mkProgram w ps (mouse st) (frameCount st) n)
  | None => None
  end.

(** [particles.forEach((p) => { p.update(mouse); p.draw(ctx); })]: the
    updated array and what was painted. *)
Fixpoint updateAndDraw (w : World) (mouse : Mouse.State)
    (particles : list (Particle Q)) : M (list (Particle Q) * list Command) :=
  match particles with
  | [] => ret ([], [])
  | p :: rest =>
      do p' <- update sqrt w mouse p;
      let painted := draw p' in
      do r <- updateAndDraw w mouse rest;
      ret (p' :: fst r, painted :: snd r)
  end.

(** [animate()]: one frame.  The call [requestAnimationFrame(animate)]
    at its end is the next [tick] of [Input]. *)
Definition animate (st : Program) : option (Program * list Command) :=
  let bg := drawBackground (world st) in
  match updateAndDraw (world st) (mouse st) (particles st) (randomCalls st)
  with
  | Some ((ps, painted), n) =>
      let links := connectParticles sqrt ps in
      Some (mkProgram (world st) ps (mouse st) (S (frameCount st)) n,
            bg :: painted ++ map line links)
  | None => None
  end.

(** What the host delivers: a pointer event on the canvas, a resize of
    the window (with its new inner size), or the next animation frame. *)
Inductive Input :=
| pointer (e : Mouse.Event)
| resize (innerWidth innerHeight : Z)
| tick.

Definition step (i : Input) (st : Program)
  : option (Program * list Command) :=
  match i with
  | pointer e =>
      Some (mkProgram (world st) (particles st) (Mouse.handle e (mouse st))
                      (frameCount st) (randomCalls st), [])
  | resize innerWidth innerHeight =>
      match resizeCanvas innerWidth innerHeight st with
      | Some st' => Some (st', [])
      | None => None
      end
  | tick => animate st
  end.

(** The inputs in order, with everything painted on the way. *)
Fixpoint run (inputs : list Input) (st : Program)
  : option (Program * list Command) :=
  match inputs with
  | [] => Some (st, [])
  | i :: rest =>
      match step i st with
      | Some (st', painted) =>
          match run rest st' with
          | Some (st'', painted') => Some (st'', painted ++ painted')
          | None => None
          end
      | None => None
      end
  end.

(** The globals as the script declares them, on a page whose canvas has
    size [c] and whose [Math.random()] returns [rnd 0], [rnd 1], ... *)
Definition loaded (c : Canvas) (rnd : nat -> Q) : Program :=
  mkProgram (mkWorld c true rnd) [] Mouse.initial 0 0.

(** The last two statements of the script: [resizeCanvas(); animate();]. *)
Definition main (innerWidth innerHeight : Z) (st : Program)
  : option (Program * list Command) :=
  run [resize innerWidth innerHeight; tick] st.

End WithFunctions.

(** [m], started after [n] draws, returns a value and a number of draws
    that satisfy [post]. *)
Definition yields {A} (m : M A) (n : nat) (post : A -> nat -> Prop) : Prop :=
  exists a n', m n = Some (a, n') /\ post a n'.

(** Notions for the statements.  A particle as the population holds it:
    ambient, fully opaque, its size within one step of [[1, 4]]. *)
Definition settled (p : Particle Q) : Prop :=
  isFirework p = false /\ alpha p = 1 /\ pulsing p.

(** The population matches the canvas and every particle is settled. *)
Definition healthy (st : Program) : Prop :=
  length (particles st) = Z.to_nat (adjustParticleCount (canvas (world st)))
  /\ Forall settled (particles st)
  /\ Mouse.paired (mouse st).

(** A painted circle that is fully opaque with a radius within one step
    of [[1, 4]]; backgrounds and lines pass. *)
Definition wellPainted (c : Command) : Prop :=
  match c with
  | circle _ opacity _ _ radius => opacity == 1 /\ 0.9 <= radius <= 4.1
  | _ => True
  end.

(** The number of animation frames among the inputs. *)
Fixpoint ticks (inputs : list Input) : nat :=
  match inputs with
  | [] => 0
  | tick :: rest => S (ticks rest)
  | _ :: rest => ticks rest
  end.

(** A particle as the constructor makes an ambient one. *)
Definition newborn (p : Particle Q) : Prop :=
  isFirework p = false /\ alpha p = 1 /\ trail p = []
  /\ 1 <= size p < 4
  /\ (sizeDirection p = 1 \/ sizeDirection p = -1)
  /\ 0 <= gray p < 255.

(** [Math.random()] returns values in [[0, 1)]. *)
Definition unitDraws (w : World) : Prop :=
  forall k : nat, 0 <= random w k < 1.

(** Sample functions to run the program: a sequence of draws in
    [[0, 1)], and polynomial stand-ins for the cosine and the sine. *)
Definition sampleRandom (n : nat) : Q :=
  inject_Z (Z.of_nat ((n * 37 + 11) mod 100)) / 100.

Definition sampleCos (t : Q) : Q := 1 - t * t / 2.

Definition sampleSin (t : Q) : Q := t - t * t * t / 6.

Definition samplePI : Q := 3.1416.

Definition sampleWorld : World :=
  mkWorld (mkCanvas 300 150) true sampleRandom.

(** Three particles at rest on a 300 x 150 canvas, two of them within
    link range, before the first frame. *)
Definition smallProgram : Program :=
  mkProgram sampleWorld [pointAt 100 100; pointAt 130 100; pointAt 290 10]
            Mouse.initial 0 0.

End Driver.

(* ===================================================================== *)
(** * Results: population sizing                                         *)
(* ===================================================================== *)

Section PopulationResults.
Import Population.
Local Open Scope Z_scope.

Example count_small : adjustParticleCount (mkCanvas 300 150) = 40.
Proof. reflexivity. Qed.

Example count_wide_default : adjustParticleCount (mkCanvas 1920 1080) = 130.
Proof. reflexivity. Qed.

Example count_narrow_tall : adjustParticleCount (mkCanvas 400 700) = 40.
Proof. reflexivity. Qed.

(** C1. For every width and height, [adjustParticleCount] is the
    two-stage lookup: the height table's candidate (first threshold the
    height is strictly below, 130 from 600 on) clamped by the minimum
    with the width table's entry (first threshold the width is strictly
    below, unchanged from 1600 on); height 150 with width 300 gives 40
    and height 250 with width 800 gives 60. *)
Theorem adjustParticleCount_two_stage :
  (forall w h : Z,
     adjustParticleCount (mkCanvas w h) = widthClamp w (heightCandidate h))
  /\ adjustParticleCount (mkCanvas 300 150) = 40
  /\ adjustParticleCount (mkCanvas 800 250) = 60.
Proof.
  split; [|split; reflexivity].
  intros w h.
  unfold adjustParticleCount, heightCandidate, widthClamp, at_index; simpl.
  repeat (destruct (_ <? _); simpl; try reflexivity).
Qed.

End PopulationResults.

(* ===================================================================== *)
(** * Results: cursor state                                              *)
(* ===================================================================== *)

Section CursorResults.

Lemma handle_paired (e : Mouse.Event) (st : Mouse.State) :
  Mouse.paired (Mouse.handle e st).
Proof. destruct e; unfold Mouse.paired; simpl; split; congruence. Qed.

Lemma deliver_snoc (es : list Mouse.Event) (e : Mouse.Event) st :
  Mouse.deliver (es ++ [e]) st = Mouse.handle e (Mouse.deliver es st).
Proof. unfold Mouse.deliver. rewrite fold_left_app. reflexivity. Qed.

(** C10. After every sequence of pointer events (each [mousemove] calls
    [set] with both coordinates, each [mouseleave] calls [reset]) the
    cursor's x coordinate is null exactly when its y coordinate is null;
    [set] installs both properties of its argument at once and [reset]
    clears both. *)
Theorem cursor_coordinates_paired :
  (forall es : list Mouse.Event, Mouse.paired (Mouse.deliver es Mouse.initial))
  /\ (forall arg st, Mouse.x (Mouse.set arg st) = Mouse.x arg
                     /\ Mouse.y (Mouse.set arg st) = Mouse.y arg)
  /\ (forall st, Mouse.x (Mouse.reset st) = None
                 /\ Mouse.y (Mouse.reset st) = None).
Proof.
  split; [|split; intros; split; reflexivity].
  intros es. induction es as [|e es _] using rev_ind.
  - unfold Mouse.paired; simpl; tauto.
  - rewrite deliver_snoc. apply handle_paired.
Qed.

End CursorResults.

(* ===================================================================== *)
(** * Results: the update step                                           *)
(* ===================================================================== *)

Section NumberFacts.
Import Physics.
Local Open Scope Q_scope.

Lemma ltb_lt (a b : Q) : ltb a b = true <-> a < b.
Proof.
  unfold ltb. rewrite negb_true_iff, <- not_true_iff_false, Qle_bool_iff.
  split; [apply Qnot_le_lt | apply Qlt_not_le].
Qed.

Lemma ltb_ge (a b : Q) : ltb a b = false <-> b <= a.
Proof. unfold ltb. rewrite negb_false_iff. apply Qle_bool_iff. Qed.

Lemma leb_le (a b : Q) : leb a b = true <-> a <= b.
Proof. apply Qle_bool_iff. Qed.

Lemma leb_gt (a b : Q) : leb a b = false <-> b < a.
Proof.
  unfold leb. rewrite <- not_true_iff_false, Qle_bool_iff.
  split; [apply Qnot_le_lt | apply Qlt_not_le].
Qed.

Lemma truthy_nonzero (a : Q) : truthy a = true <-> ~ a == 0.
Proof.
  unfold truthy. rewrite negb_true_iff, <- not_true_iff_false, Qeq_bool_iff.
  reflexivity.
Qed.

Lemma Qsqrt_pos (d : Q) : 0 < d -> 0 < Qsqrt d.
Proof.
  destruct d as [n den]. unfold Qsqrt, Qlt; simpl. intros H.
  rewrite Z.mul_1_r in *. apply Z.sqrt_pos. nia.
Qed.

Lemma Qsqrt_square (a : Q) : 0 <= a -> Qsqrt (a * a) == a.
Proof.
  destruct a as [n den]. unfold Qsqrt, Qle, Qeq; simpl. intros H.
  rewrite Z.mul_1_r in H.
  replace (n * n * Z.pos (den * den))%Z
    with ((n * Z.pos den) * (n * Z.pos den))%Z by (rewrite Pos2Z.inj_mul; ring).
  rewrite Z.sqrt_square by nia. rewrite Pos2Z.inj_mul. ring.
Qed.

End NumberFacts.

Section UpdateResults.
Import Population Physics.
Local Open Scope Q_scope.

Variable sqrt : Q -> Q.
Hypothesis sqrt_pos : forall d : Q, 0 < d -> 0 < sqrt d.

Lemma square_nonneg (a : Q) : 0 <= a ^ 2.
Proof. nra. Qed.

Lemma cursorDist_nonneg (m : Mouse.State) (p : Particle Q) :
  0 <= cursorDist m p.
Proof.
  unfold cursorDist. destruct (Mouse.isNull (Mouse.x m)); cbn [negb].
  - lra.
  - pose proof (square_nonneg (Mouse.toNumber (Mouse.x m) - x p)).
    pose proof (square_nonneg (Mouse.toNumber (Mouse.y m) - y p)).
    lra.
Qed.

Lemma cursorDist_absent (m : Mouse.State) (p : Particle Q) :
  Mouse.x m = None -> cursorDist m p = 0.
Proof. intros H. unfold cursorDist. rewrite H. reflexivity. Qed.

Lemma returns_ret {A} (a : A) (n : nat) (post : A -> Prop) :
  post a -> returns (ret a) n post.
Proof. intros H. exists a, n. split; [reflexivity | exact H]. Qed.

Lemma returns_bind {A B} (m : M A) (k : A -> M B) (n : nat)
    (mid : A -> Prop) (post : B -> Prop) :
  returns m n mid ->
  (forall a n', mid a -> returns (k a) n' post) ->
  returns (bind m k) n post.
Proof.
  intros (a & n' & Hm & Ha) Hk. unfold returns, bind. rewrite Hm.
  apply Hk. exact Ha.
Qed.

Lemma returns_mathRandom (w : World) (n : nat) :
  returns (mathRandom w) n (fun _ => True).
Proof. exists (random w n), (S n). split; [reflexivity | exact I]. Qed.

Lemma returns_divide (a b : Q) (n : nat) :
  ~ b == 0 -> returns (divide a b) n (fun _ => True).
Proof.
  intros H. exists (a / b), n. split; [|exact I]. unfold divide.
  destruct (Qeq_bool b 0) eqn:E; [|reflexivity].
  apply Qeq_bool_eq in E. contradiction.
Qed.

Lemma sameButVelocity_refl (p : Particle Q) : sameButVelocity p p.
Proof. repeat split. Qed.

Lemma sameButVelocity_vx (p q : Particle Q) (v : Q) :
  sameButVelocity p q -> sameButVelocity p (set_vx v q).
Proof. unfold sameButVelocity; simpl; tauto. Qed.

Lemma sameButVelocity_vy (p q : Particle Q) (v : Q) :
  sameButVelocity p q -> sameButVelocity p (set_vy v q).
Proof. unfold sameButVelocity; simpl; tauto. Qed.

Lemma sqrt_nonzero (d : Q) : 0 <= d -> ~ d == 0 -> ~ sqrt d == 0.
Proof.
  intros Hd Hnz. assert (H : 0 < d).
  { apply Qle_lteq in Hd. destruct Hd as [?|E]; [assumption|].
    symmetry in E. contradiction. }
  specialize (sqrt_pos d H). lra.
Qed.

Lemma ambientStep_returns (w : World) (m : Mouse.State) (p : Particle Q)
    (n : nat) :
  returns (ambientStep sqrt w m (cursorDist m p) p) n (sameButVelocity p).
Proof.
  pose proof (cursorDist_nonneg m p) as Hd.
  unfold ambientStep. set (d := cursorDist m p) in *.
  apply returns_bind with (mid := fun _ => True).
  { destruct (truthy d && ltb d 22500).
    - apply returns_divide. discriminate.
    - apply returns_ret. exact I. }
  intros force n1 _.
  apply returns_bind with (mid := sameButVelocity p).
  { destruct (Mouse.isNull (Mouse.x m) && autoDrift w).
    - eapply returns_bind; [apply returns_mathRandom|]. intros r1 n2 _.
      eapply returns_bind; [apply returns_mathRandom|]. intros r2 n3 _.
      apply returns_ret.
      apply sameButVelocity_vy, sameButVelocity_vx, sameButVelocity_refl.
    - apply returns_ret, sameButVelocity_refl. }
  intros q1 n2 Hq1.
  apply returns_bind with (mid := sameButVelocity p).
  { destruct (truthy d) eqn:Ht.
    - apply truthy_nonzero in Ht.
      pose proof (sqrt_nonzero d Hd Ht) as Hs.
      eapply returns_bind; [apply returns_divide, Hs|]. intros ux n3 _.
      eapply returns_bind; [apply returns_divide, Hs|]. intros uy n4 _.
      apply returns_ret.
      apply sameButVelocity_vy, sameButVelocity_vx, Hq1.
    - apply returns_ret, Hq1. }
  intros q2 n3 Hq2. apply returns_ret.
  apply sameButVelocity_vy, sameButVelocity_vx, Hq2.
Qed.

Lemma update_firework (w : World) (m : Mouse.State) (p : Particle Q)
    (n : nat) :
  isFirework p = true ->
  update sqrt w m p n = Some (finish w (fireworkStep p), n).
Proof. intros Hf. unfold update, bind. rewrite Hf. reflexivity. Qed.

Lemma update_ambient (w : World) (m : Mouse.State) (p : Particle Q)
    (n : nat) :
  isFirework p = false ->
  exists q n', update sqrt w m p n = Some (finish w q, n')
               /\ sameButVelocity p q.
Proof.
  intros Hf. destruct (ambientStep_returns w m p n) as (q & n' & Hq & Hs).
  exists q, n'. split; [|exact Hs].
  unfold update, bind. rewrite Hf. cbn [negb]. rewrite Hq. reflexivity.
Qed.

Lemma bounce_eq (w : World) (r : Particle Q) :
  bounce w r
  = set_vy (if ltb (y r) 0 || ltb (inject_Z (height (canvas w))) (y r)
            then vy r * -0.9 else vy r)
      (set_vx (if leb (x r) 0 || leb (inject_Z (width (canvas w)) - 1) (x r)
               then vx r * -0.9 else vx r) r).
Proof.
  destruct r as [f px py pvx pvy s g a d t]. unfold bounce.
  cbn -[Qplus Qmult Qminus Qopp].
  destruct (leb px 0 || leb _ px); cbn -[Qplus Qmult Qminus Qopp];
    destruct (ltb py 0 || ltb _ py); reflexivity.
Qed.

Lemma pulse_eq (r : Particle Q) :
  pulse r
  = set_sizeDirection
      (if ltb 4 (size r + sizeDirection r * 0.1)
          || ltb (size r + sizeDirection r * 0.1) 1
       then sizeDirection r * -1 else sizeDirection r)
      (set_size (size r + sizeDirection r * 0.1) r).
Proof.
  destruct r as [f px py pvx pvy s g a d t]. unfold pulse.
  cbn -[Qplus Qmult Qminus Qopp].
  destruct (ltb 4 _ || ltb _ 1); reflexivity.
Qed.

Lemma finish_alpha (w : World) (q : Particle Q) :
  alpha (finish w q) = alpha q.
Proof. unfold finish. rewrite pulse_eq, bounce_eq. reflexivity. Qed.

Lemma finish_isFirework (w : World) (q : Particle Q) :
  isFirework (finish w q) = isFirework q.
Proof. unfold finish. rewrite pulse_eq, bounce_eq. reflexivity. Qed.

Lemma finish_size (w : World) (q : Particle Q) :
  size (finish w q) = size q + sizeDirection q * 0.1.
Proof. unfold finish. rewrite pulse_eq, bounce_eq. reflexivity. Qed.

Lemma finish_x (w : World) (q : Particle Q) :
  x (finish w q) = x q + vx q.
Proof. unfold finish. rewrite pulse_eq, bounce_eq. reflexivity. Qed.

Lemma finish_y (w : World) (q : Particle Q) :
  y (finish w q) = y q + vy q.
Proof. unfold finish. rewrite pulse_eq, bounce_eq. reflexivity. Qed.

Lemma finish_sizeDirection (w : World) (q : Particle Q) :
  sizeDirection (finish w q)
  = if ltb 4 (size (finish w q)) || ltb (size (finish w q)) 1
    then sizeDirection q * -1 else sizeDirection q.
Proof.
  rewrite finish_size. unfold finish. rewrite pulse_eq, bounce_eq.
  reflexivity.
Qed.

Lemma finish_vx (w : World) (q : Particle Q) :
  vx (finish w q)
  = if leb (x (finish w q)) 0
       || leb (inject_Z (width (canvas w)) - 1) (x (finish w q))
    then vx q * -0.9 else vx q.
Proof.
  rewrite finish_x. unfold finish. rewrite pulse_eq, bounce_eq.
  reflexivity.
Qed.

Lemma finish_vy (w : World) (q : Particle Q) :
  vy (finish w q)
  = if ltb (y (finish w q)) 0
       || ltb (inject_Z (height (canvas w))) (y (finish w q))
    then vy q * -0.9 else vy q.
Proof.
  rewrite finish_y. unfold finish. rewrite pulse_eq, bounce_eq.
  reflexivity.
Qed.

Lemma updates_invariant (inv : Particle Q -> Prop) (w : World) :
  (forall m p n, inv p ->
     exists p' n', update sqrt w m p n = Some (p', n') /\ inv p') ->
  forall calls p, inv p ->
    exists p', updates sqrt w calls p = Some p' /\ inv p'.
Proof.
  intros Hstep calls. induction calls as [|c rest IH]; intros p Hp.
  - exists p. split; [reflexivity | exact Hp].
  - destruct (Hstep (cursor c) p (drawn c) Hp) as (p1 & n1 & Hu & Hp1).
    destruct (IH p1 Hp1) as (p' & Hr & Hp').
    exists p'. split; [|exact Hp']. simpl. rewrite Hu. exact Hr.
Qed.

(** One step of the shared tail keeps the size within one step of the
    interval and the direction pointing back to it. *)
Lemma pulsing_finish (w : World) (q : Particle Q) :
  pulsing q -> pulsing (finish w q).
Proof.
  unfold pulsing. rewrite finish_sizeDirection, finish_size.
  intros (Hd & Hs & Hhi & Hlo).
  destruct (ltb 4 _ || ltb _ 1) eqn:E.
  - apply orb_true_iff in E. rewrite !ltb_lt in E.
    destruct Hd as [Hd|Hd]; rewrite Hd in *;
      (split; [first [left; lra | right; lra]|]);
      (split; [lra|]); split; intros; lra.
  - apply orb_false_iff in E. rewrite !ltb_ge in E.
    destruct Hd as [Hd|Hd]; rewrite Hd in *;
      (split; [first [left; lra | right; lra]|]);
      (split; [lra|]); split; intros; lra.
Qed.

Lemma pulsing_same (p q : Particle Q) :
  size q = size p -> sizeDirection q = sizeDirection p ->
  pulsing p -> pulsing q.
Proof. unfold pulsing. intros -> ->. tauto. Qed.

Lemma update_pulsing (w : World) (m : Mouse.State) (p : Particle Q)
    (n : nat) :
  pulsing p ->
  exists p' n', update sqrt w m p n = Some (p', n') /\ pulsing p'.
Proof.
  intros Hp. destruct (isFirework p) eqn:Hf.
  - exists (finish w (fireworkStep p)), n.
    split; [apply update_firework, Hf|].
    apply pulsing_finish. revert Hp. apply pulsing_same; reflexivity.
  - destruct (update_ambient w m p n Hf) as (q & n' & Hu & Hs).
    exists (finish w q), n'. split; [exact Hu|].
    apply pulsing_finish. revert Hp.
    unfold sameButVelocity in Hs. apply pulsing_same; tauto.
Qed.

(** C4 (amended). For a particle whose size starts in [[1, 4]] with a
    direction of 1 or -1, every sequence of [update] calls returns, and
    afterwards [0.9 <= size <= 4.1]: the direction flips only after the
    size has left [[1, 4]], so the size passes each bound by at most one
    step of 0.1. *)
Theorem size_within_one_step (w : World) (calls : list Call)
    (p : Particle Q) :
  1 <= size p <= 4 ->
  sizeDirection p == 1 \/ sizeDirection p == -1 ->
  exists p', updates sqrt w calls p = Some p' /\ 0.9 <= size p' <= 4.1.
Proof.
  intros Hs Hd.
  destruct (updates_invariant pulsing w (update_pulsing w) calls p)
    as (p' & Hr & Hp').
  { unfold pulsing. repeat split; try tauto; try lra; intros; lra. }
  exists p'. split; [exact Hr|]. unfold pulsing in Hp'. tauto.
Qed.

(** ** Opacity *)

Lemma isDead_iff (q : Particle Q) :
  isDead q = true <-> isFirework q = true /\ alpha q <= 0.
Proof. unfold isDead. rewrite andb_true_iff, leb_le. reflexivity. Qed.

Lemma update_firework_alpha (w : World) (m : Mouse.State) (q : Particle Q)
    (n : nat) :
  isFirework q = true ->
  exists q', update sqrt w m q n = Some (q', n)
             /\ alpha q' = alpha q - 0.02 /\ isFirework q' = true.
Proof.
  intros Hf. exists (finish w (fireworkStep q)).
  split; [apply update_firework, Hf|].
  rewrite finish_alpha, finish_isFirework. split; [reflexivity | exact Hf].
Qed.

Lemma updates_firework_alpha (w : World) (calls : list Call)
    (p : Particle Q) :
  isFirework p = true ->
  exists p', updates sqrt w calls p = Some p'
             /\ isFirework p' = true
             /\ alpha p' == alpha p - inject_Z (Z.of_nat (length calls)) * 0.02.
Proof.
  revert p. induction calls as [|c rest IH]; intros p Hf.
  - exists p. split; [reflexivity|]. split; [exact Hf|].
    change (inject_Z (Z.of_nat (length (@nil Call)))) with 0. lra.
  - destruct (update_firework_alpha w (cursor c) p (drawn c) Hf)
      as (p1 & Hu & Ha & Hf1).
    destruct (IH p1 Hf1) as (p' & Hr & Hf' & Ha').
    exists p'. split; [simpl; rewrite Hu; exact Hr|]. split; [exact Hf'|].
    rewrite Ha', Ha. change (length (c :: rest)) with (S (length rest)).
    rewrite Nat2Z.inj_succ. unfold Z.succ. rewrite inject_Z_plus.
    change (inject_Z 1) with 1. lra.
Qed.

Lemma fifty_steps (k : nat) :
  1 - inject_Z (Z.of_nat k) * 0.02 <= 0 <-> (50 <= k)%nat.
Proof.
  rewrite Nat2Z.inj_le, (Zle_Qle (Z.of_nat 50)).
  change (inject_Z (Z.of_nat 50)) with 50. split; intros; lra.
Qed.

(** C5. Each [update] of a firework particle returns and decrements
    [alpha] by exactly 0.02, so [alpha] does not increase; [isDead] is
    true exactly for a firework with [alpha <= 0]; starting from
    [alpha = 1], a firework is dead after a sequence of [update] calls
    exactly when the sequence has at least 50 calls; an ambient particle
    is never dead. *)
Theorem firework_fades_in_fifty_updates (w : World) (calls : list Call)
    (p : Particle Q) :
  isFirework p = true ->
  alpha p == 1 ->
  (forall m q n, isFirework q = true ->
     exists q', update sqrt w m q n = Some (q', n)
                /\ alpha q' = alpha q - 0.02 /\ alpha q' <= alpha q
                /\ isFirework q' = true)
  /\ (forall q, isDead q = true <-> isFirework q = true /\ alpha q <= 0)
  /\ (exists p', updates sqrt w calls p = Some p'
                 /\ alpha p' == 1 - inject_Z (Z.of_nat (length calls)) * 0.02
                 /\ (isDead p' = true <-> (50 <= length calls)%nat))
  /\ (forall q, isFirework q = false -> isDead q = false).
Proof.
  intros Hf Ha. split; [|split; [|split]].
  - intros m q n Hq.
    destruct (update_firework_alpha w m q n Hq) as (q' & Hu & Hq' & Hfq).
    exists q'. repeat split; try assumption. rewrite Hq'. lra.
  - apply isDead_iff.
  - destruct (updates_firework_alpha w calls p Hf) as (p' & Hr & Hf' & Ha').
    rewrite Ha in Ha'. exists p'. split; [exact Hr|]. split; [exact Ha'|].
    rewrite isDead_iff, Ha', fifty_steps. tauto.
  - intros q Hq. unfold isDead. rewrite Hq. reflexivity.
Qed.

(** C9. For an ambient particle every [update] call returns a particle
    with the same [alpha] that is still ambient, so after any sequence of
    [update] calls [alpha] is what it was, 1 if it was 1. *)
Theorem ambient_alpha_unchanged (w : World) (calls : list Call)
    (p : Particle Q) :
  isFirework p = false ->
  (forall m n, exists p' n', update sqrt w m p n = Some (p', n')
                             /\ alpha p' = alpha p
                             /\ isFirework p' = false)
  /\ (exists p', updates sqrt w calls p = Some p'
                 /\ alpha p' = alpha p
                 /\ (alpha p = 1 -> alpha p' = 1)).
Proof.
  intros Hf.
  assert (Hstep : forall m q n,
            isFirework q = false /\ alpha q = alpha p ->
            exists q' n', update sqrt w m q n = Some (q', n')
                          /\ (isFirework q' = false /\ alpha q' = alpha p)).
  { intros m q n [Hfq Haq].
    destruct (update_ambient w m q n Hfq) as (r & n' & Hu & Hs).
    exists (finish w r), n'. split; [exact Hu|].
    rewrite finish_isFirework, finish_alpha.
    unfold sameButVelocity in Hs. destruct Hs as (-> & _ & _ & _ & _ & -> & _).
    tauto. }
  split.
  - intros m n. destruct (Hstep m p n (conj Hf eq_refl)) as (p' & n' & Hu & H).
    exists p', n'. tauto.
  - destruct (updates_invariant _ w Hstep calls p (conj Hf eq_refl))
      as (p' & Hr & _ & Ha).
    exists p'. split; [exact Hr|]. split; [exact Ha|]. congruence.
Qed.

(** ** Edges *)

Lemma x_edge_iff (a b : Q) :
  leb a 0 || leb (b - 1) a = true <-> a <= 0 \/ b - 1 <= a.
Proof. rewrite orb_true_iff, !leb_le. reflexivity. Qed.

Lemma y_edge_iff (a b : Q) :
  ltb a 0 || ltb b a = true <-> a < 0 \/ b < a.
Proof. rewrite orb_true_iff, !ltb_lt. reflexivity. Qed.

(** The edge tests as the code makes them.  Every [update] call
    returns; with [q] the particle
    after the force or decay step (same position as before the call),
    the new position is [q]'s position plus [q]'s velocity, and then
    [vx] is [q]'s [vx] times -0.9 if [x <= 0] or [x >= width - 1] and
    [q]'s [vx] otherwise, while [vy] is [q]'s [vy] times -0.9 if
    [y < 0] or [y > height], strictly, and [q]'s [vy] otherwise; each
    axis is decided on its own. *)
Theorem edge_bounce_per_axis (w : World) (m : Mouse.State)
    (p : Particle Q) (n : nat) :
  exists q p' n',
    update sqrt w m p n = Some (p', n')
    /\ x q = x p /\ y q = y p
    /\ (isFirework p = true -> vx q = vx p /\ vy q = vy p)
    /\ x p' = x q + vx q /\ y p' = y q + vy q
    /\ (x p' <= 0 \/ inject_Z (width (canvas w)) - 1 <= x p' ->
        vx p' = vx q * -0.9)
    /\ (~ (x p' <= 0 \/ inject_Z (width (canvas w)) - 1 <= x p') ->
        vx p' = vx q)
    /\ (y p' < 0 \/ inject_Z (height (canvas w)) < y p' ->
        vy p' = vy q * -0.9)
    /\ (~ (y p' < 0 \/ inject_Z (height (canvas w)) < y p') ->
        vy p' = vy q).
Proof.
  assert (Hq : exists q n', update sqrt w m p n = Some (finish w q, n')
             /\ x q = x p /\ y q = y p
             /\ (isFirework p = true -> vx q = vx p /\ vy q = vy p)).
  { destruct (isFirework p) eqn:Hf.
    - exists (fireworkStep p), n. split; [apply update_firework, Hf|].
      repeat split.
    - destruct (update_ambient w m p n Hf) as (q & n' & Hu & Hs).
      exists q, n'. split; [exact Hu|]. unfold sameButVelocity in Hs.
      repeat split; try tauto; discriminate. }
  destruct Hq as (q & n' & Hu & Hx & Hy & Hv).
  exists q, (finish w q), n'.
  split; [exact Hu|]. split; [exact Hx|]. split; [exact Hy|].
  split; [exact Hv|].
  split; [apply finish_x|]. split; [apply finish_y|].
  rewrite finish_vx, finish_vy.
  destruct (leb _ 0 || leb _ _) eqn:Ex;
    [apply x_edge_iff in Ex
    | apply not_true_iff_false in Ex; rewrite x_edge_iff in Ex];
    (destruct (ltb _ 0 || ltb _ _) eqn:Ey;
     [apply y_edge_iff in Ey
     | apply not_true_iff_false in Ey; rewrite y_edge_iff in Ey]);
    repeat split; intros; try reflexivity; contradiction.
Qed.

(** ** Division *)

(** C7. [update] returns for every world, cursor state, particle and
    number of earlier draws: no division has a zero divisor.  The
    squared distance is 0 whenever the cursor's x is null, and when the
    squared distance is zero the call returns whatever [Math.sqrt] is,
    since the attraction term (the only place that divides by a square
    root) is not evaluated. *)
Theorem update_divisors_nonzero :
  (forall w m p n, exists p' n', update sqrt w m p n = Some (p', n'))
  /\ (forall m p, Mouse.x m = None -> cursorDist m p = 0)
  /\ (forall (root : Q -> Q) w m p n,
        cursorDist m p == 0 ->
        exists p' n', update root w m p n = Some (p', n')).
Proof.
  split; [|split].
  - intros w m p n. destruct (isFirework p) eqn:Hf.
    + exists (finish w (fireworkStep p)), n. apply update_firework, Hf.
    + destruct (update_ambient w m p n Hf) as (q & n' & Hu & _).
      exists (finish w q), n'. exact Hu.
  - apply cursorDist_absent.
  - intros root w m p n Hz. unfold update, bind.
    destruct (negb (isFirework p)); [|do 2 eexists; reflexivity].
    assert (Ht : truthy (cursorDist m p) = false).
    { apply not_true_iff_false. rewrite truthy_nonzero. tauto. }
    unfold ambientStep, bind. rewrite Ht. cbn [andb].
    destruct (Mouse.isNull (Mouse.x m) && autoDrift w);
      do 2 eexists; reflexivity.
Qed.

End UpdateResults.

Section UpdateExamples.
Import Population Physics.
Local Open Scope Q_scope.

(** The claim of C4 as worded, [1 <= size <= 4] after every update,
    fails: a size of 3.95 growing by 0.1 is 4.05 after one call. *)
Lemma size_exceeds_four_after_update :
  1 <= size (ambient 3.95 1) <= 4
  /\ exists p', updates Qsqrt idleWorld [cursorAbsent] (ambient 3.95 1)
                = Some p'
                /\ size p' == 4.05 /\ ~ size p' <= 4.
Proof.
  split; [split; vm_compute; discriminate|].
  eexists. split; [vm_compute; reflexivity|].
  split; [reflexivity | apply Qlt_not_le; reflexivity].
Qed.

Lemma size_within_one_step_witness :
  (forall d : Q, 0 < d -> 0 < Qsqrt d)
  /\ 1 <= size (ambient 3.95 1) <= 4
  /\ exists p', updates Qsqrt idleWorld
                  [cursorAbsent; cursorAt 410 300; cursorAbsent]
                  (ambient 3.95 1) = Some p'
                /\ 0.9 <= size p' <= 4.1.
Proof.
  split; [exact Qsqrt_pos|].
  split; [split; vm_compute; discriminate|].
  apply (size_within_one_step Qsqrt Qsqrt_pos).
  - split; vm_compute; discriminate.
  - left. reflexivity.
Defined.

(** A particle that lands on [y = 0] keeps its [vy]. *)
Lemma no_bounce_on_the_edge_line :
  exists p', update Qsqrt idleWorld Mouse.initial falling 0%nat = Some (p', 2%nat)
             /\ y p' == 0 /\ vy p' == -9.98 /\ ~ vy p' == -9.98 * -0.9.
Proof.
  eexists. split; [vm_compute; reflexivity|].
  split; [reflexivity|]. split; [reflexivity|]. discriminate.
Qed.

Lemma edge_bounce_per_axis_witness :
  (forall d : Q, 0 < d -> 0 < Qsqrt d)
  /\ exists q p' n',
       update Qsqrt idleWorld Mouse.initial falling 0%nat = Some (p', n')
       /\ y p' = y q + vy q
       /\ (~ (y p' < 0 \/ inject_Z (height (canvas idleWorld)) < y p') ->
           vy p' = vy q).
Proof.
  split; [exact Qsqrt_pos|].
  destruct (edge_bounce_per_axis Qsqrt Qsqrt_pos idleWorld Mouse.initial
              falling 0%nat)
    as (q & p' & n' & Hu & _ & _ & _ & _ & Hy & _ & _ & _ & Hvy).
  exists q, p', n'. split; [exact Hu|]. split; [exact Hy | exact Hvy].
Defined.

Lemma firework_fades_in_fifty_updates_witness :
  isFirework spark = true
  /\ alpha spark == 1
  /\ exists p', updates Qsqrt idleWorld (repeat cursorAbsent 50) spark
                = Some p'
                /\ isDead p' = true.
Proof.
  split; [reflexivity|]. split; [reflexivity|].
  destruct (firework_fades_in_fifty_updates Qsqrt idleWorld
              (repeat cursorAbsent 50) spark eq_refl (Qeq_refl 1))
    as (_ & _ & (p' & Hr & _ & Hd) & _).
  exists p'. split; [exact Hr|]. apply (proj2 Hd).
  rewrite repeat_length. apply le_n.
Defined.

Example spark_alive_after_49 :
  exists p', updates Qsqrt idleWorld (repeat cursorAbsent 49) spark = Some p'
             /\ alpha p' == 0.02 /\ isDead p' = false.
Proof.
  eexists. split; [vm_compute; reflexivity|]. split; reflexivity.
Qed.

Example spark_dead_after_50 :
  exists p', updates Qsqrt idleWorld (repeat cursorAbsent 50) spark = Some p'
             /\ alpha p' == 0 /\ isDead p' = true.
Proof.
  eexists. split; [vm_compute; reflexivity|]. split; reflexivity.
Qed.

Lemma ambient_alpha_unchanged_witness :
  (forall d : Q, 0 < d -> 0 < Qsqrt d)
  /\ isFirework (ambient 2 1) = false
  /\ exists p', updates Qsqrt idleWorld [cursorAt 410 300; cursorAbsent]
                  (ambient 2 1) = Some p'
                /\ alpha p' = 1.
Proof.
  split; [exact Qsqrt_pos|]. split; [reflexivity|].
  destruct (ambient_alpha_unchanged Qsqrt Qsqrt_pos idleWorld
              [cursorAt 410 300; cursorAbsent] (ambient 2 1) eq_refl)
    as (_ & p' & Hr & _ & Ha).
  exists p'. split; [exact Hr | apply Ha; reflexivity].
Defined.

Lemma update_divisors_nonzero_witness :
  (forall d : Q, 0 < d -> 0 < Qsqrt d)
  /\ exists p' n',
       update Qsqrt idleWorld (cursor (cursorAt 410 300)) (ambient 2 1) 0%nat
       = Some (p', n').
Proof.
  split; [exact Qsqrt_pos|].
  destruct (update_divisors_nonzero Qsqrt Qsqrt_pos) as (Htotal & _).
  apply Htotal.
Defined.

(** The division check of the model is live: with a square root that
    returned 0 the attraction term would divide by zero. *)
Example attraction_divides_by_the_root :
  update (fun _ => 0) idleWorld (cursor (cursorAt 410 300)) (ambient 2 1) 0%nat
  = None.
Proof. vm_compute. reflexivity. Qed.

(** With the cursor on the particle the squared distance is 0 and the
    attraction term is skipped. *)
Example cursor_on_particle :
  exists p', update (fun _ => 0) idleWorld (cursor (cursorAt 400 300))
               (ambient 2 1) 0%nat = Some (p', 0%nat)
             /\ vx p' == 0 /\ vy p' == 0.
Proof.
  eexists. split; [vm_compute; reflexivity|]. split; reflexivity.
Qed.

End UpdateExamples.

(* ===================================================================== *)
(** * Results: the constructor                                           *)
(* ===================================================================== *)

Section ConstructionResults.
Import Physics Construction.
Local Open Scope R_scope.

Lemma construct_velocity (random : nat -> R) (px py : R) (n : nat) :
  let p := fst (construct random px py false n) in
  vx p = cos (random (S n) * PI * 2) * ambientSpeed (random n)
  /\ vy p = sin (random (S (S n)) * PI * 2) * ambientSpeed (random n).
Proof. split; reflexivity. Qed.

Lemma ambientSpeed_range (u : R) :
  0 <= u < 1 -> 0.3 <= ambientSpeed u < 0.8.
Proof. unfold ambientSpeed. lra. Qed.

Lemma two_angle_square_bound (a b s : R) :
  (cos a * s) * (cos a * s) + (sin b * s) * (sin b * s) <= 2 * (s * s).
Proof.
  pose proof (COS_bound a) as [? ?]. pose proof (SIN_bound b) as [? ?].
  assert (cos a * cos a <= 1) by nra.
  assert (sin b * sin b <= 1) by nra.
  assert (0 <= s * s) by nra.
  nra.
Qed.

Lemma one_angle_square (a s : R) :
  (cos a * s) * (cos a * s) + (sin a * s) * (sin a * s) = s * s.
Proof.
  pose proof (sin2_cos2 a) as H. unfold Rsqr in H.
  replace ((cos a * s) * (cos a * s) + (sin a * s) * (sin a * s))
    with ((sin a * sin a + cos a * cos a) * (s * s)) by ring.
  rewrite H. ring.
Qed.

(** C8.  The constructor at the draws 0 (base speed 0.3), 1/4 (the
    angle under [Math.cos]) and 0 (the angle under [Math.sin]): the two
    components take their angles from two separate [Math.random()]
    calls, and here both vanish.  The velocity has magnitude 0, outside
    [[0.3, 0.8)], and is the base speed 0.3 times no unit vector, where
    the claim has the base speed times the unit vector of one angle. *)
Lemma velocity_is_not_speed_times_unit_vector :
  let p := fst (construct (drawsOf [0; 1 / 4; 0]) 0 0 false 0) in
  vx p = 0 /\ vy p = 0
  /\ ~ (0.3 <= sqrt (vx p * vx p + vy p * vy p) < 0.8)
  /\ ~ (exists theta : R, vx p = cos theta * ambientSpeed 0
                          /\ vy p = sin theta * ambientSpeed 0).
Proof.
  cbv zeta. destruct (construct_velocity (drawsOf [0; 1 / 4; 0]) 0 0 0)
    as [Hx Hy]. cbv zeta in Hx, Hy. cbn [drawsOf nth] in Hx, Hy.
  replace (1 / 4 * PI * 2) with (PI / 2) in Hx by field.
  replace (0 * PI * 2) with 0 in Hy by ring.
  rewrite cos_PI2 in Hx. rewrite sin_0 in Hy.
  rewrite Rmult_0_l in Hx, Hy. rewrite Hx, Hy.
  split; [reflexivity|]. split; [reflexivity|]. split.
  - replace (0 * 0 + 0 * 0) with 0 by ring. rewrite sqrt_0. lra.
  - intros (theta & Hc & Hs). unfold ambientSpeed in Hc, Hs.
    pose proof (sin2_cos2 theta) as H. unfold Rsqr in H.
    assert (cos theta = 0) by lra. assert (sin theta = 0) by lra.
    rewrite H0, H1 in H. lra.
Qed.

(** The velocity as the constructor computes it.  An ambient
    particle's initial velocity is
    [vx = s * cos (2 pi a)] and [vy = s * sin (2 pi b)], where the base
    speed [s] is [0.3 + 0.5 u] for the first draw [u], so in
    [[0.3, 0.8)], and [a] and [b] are the next two draws, each giving an
    angle in [[0, 2 pi)]; the magnitude is at most [s * sqrt 2] and is
    [s] when the two angle draws agree. *)
Theorem ambient_velocity_two_angle_draws (random : nat -> R)
    (px py : R) (n : nat) :
  (forall k, 0 <= random k < 1) ->
  let p := fst (construct random px py false n) in
  let s := ambientSpeed (random n) in
  let a := random (S n) * PI * 2 in
  let b := random (S (S n)) * PI * 2 in
  0.3 <= s < 0.8
  /\ 0 <= a < 2 * PI /\ 0 <= b < 2 * PI
  /\ vx p = cos a * s /\ vy p = sin b * s
  /\ sqrt (vx p * vx p + vy p * vy p) <= s * sqrt 2
  /\ (random (S n) = random (S (S n)) ->
      sqrt (vx p * vx p + vy p * vy p) = s).
Proof.
  intros Hr p s a b.
  destruct (construct_velocity random px py n) as [Hx Hy].
  fold p s a b in Hx, Hy.
  pose proof (ambientSpeed_range _ (Hr n)) as Hs. fold s in Hs.
  pose proof PI_RGT_0 as Hpi.
  pose proof (Hr (S n)) as Ha. pose proof (Hr (S (S n))) as Hb.
  split; [exact Hs|].
  split; [unfold a; nra|]. split; [unfold b; nra|].
  split; [exact Hx|]. split; [exact Hy|].
  rewrite Hx, Hy. split.
  - replace (s * sqrt 2) with (sqrt (2 * (s * s))).
    + apply sqrt_le_1_alt, two_angle_square_bound.
    + rewrite sqrt_mult by nra. rewrite sqrt_square by lra. ring.
  - intros E. unfold a, b. rewrite E. rewrite one_angle_square.
    apply sqrt_square. lra.
Qed.

Lemma ambient_velocity_two_angle_draws_witness :
  (forall k, 0 <= drawsOf [1 / 2; 1 / 4; 1 / 4] k < 1)
  /\ sqrt (vx (fst (construct (drawsOf [1 / 2; 1 / 4; 1 / 4]) 0 0 false 0))
           * vx (fst (construct (drawsOf [1 / 2; 1 / 4; 1 / 4]) 0 0 false 0))
           + vy (fst (construct (drawsOf [1 / 2; 1 / 4; 1 / 4]) 0 0 false 0))
             * vy (fst (construct (drawsOf [1 / 2; 1 / 4; 1 / 4]) 0 0 false 0)))
     = ambientSpeed (1 / 2).
Proof.
  assert (H : forall k, 0 <= drawsOf [1 / 2; 1 / 4; 1 / 4] k < 1).
  { intros k. unfold drawsOf.
    destruct k as [|[|[|[|k]]]]; simpl; lra. }
  split; [exact H|].
  apply (ambient_velocity_two_angle_draws _ 0 0 0%nat H). reflexivity.
Defined.

End ConstructionResults.

(* ===================================================================== *)
(** * Results: the proximity linker                                      *)
(* ===================================================================== *)

Section KeyResults.
Import Linker.

(** The digits of a number contain no comma. *)
Lemma pretty_N_go_commaFree (n : N) (s : string) :
  commaFree s = true -> commaFree (pretty_N_go n s) = true.
Proof.
  revert s. induction (N.lt_wf_0 n) as [n _ IH]. intros s Hs.
  destruct (decide (n = 0%N)) as [->|Hn].
  - rewrite pretty_N_go_0. exact Hs.
  - rewrite pretty_N_go_step by lia. apply IH.
    + apply N.div_lt; lia.
    + cbn [commaFree]. rewrite Hs, andb_true_r.
      unfold pretty_N_char. repeat case_match; reflexivity.
Qed.

Lemma pretty_N_commaFree (n : N) : commaFree (pretty n) = true.
Proof.
  unfold pretty, pretty_N. case_decide; [reflexivity|].
  apply pretty_N_go_commaFree. reflexivity.
Qed.

Lemma pretty_Z_commaFree (z : Z) : commaFree (pretty z) = true.
Proof.
  destruct z as [|p|p]; unfold pretty, pretty_Z; [reflexivity| |].
  - apply pretty_N_commaFree.
  - cbn [String.append commaFree]. apply pretty_N_commaFree.
Qed.

(** A comma-free prefix is determined by the text up to the first comma. *)
Lemma comma_split (s1 s2 t1 t2 : string) :
  commaFree s1 = true -> commaFree s2 = true ->
  s1 +:+ "," +:+ t1 = s2 +:+ "," +:+ t2 -> s1 = s2 /\ t1 = t2.
Proof.
  revert s2. induction s1 as [|a s1 IH]; intros [|b s2] H1 H2 E;
    simpl in *; simplify_eq; try discriminate.
  - split; reflexivity.
  - apply andb_true_iff in H1 as [_ H1]. apply andb_true_iff in H2 as [_ H2].
    destruct (IH s2 H1 H2) as [-> ->]; [assumption|]. split; reflexivity.
Qed.

(** Distinct cells have distinct keys. *)
Lemma cellKey_inj (a b c d : Z) :
  cellKey a b = cellKey c d -> a = c /\ b = d.
Proof.
  unfold cellKey. intros E.
  apply comma_split in E as [Ea Eb]; try apply pretty_Z_commaFree.
  split; eapply (inj pretty); eassumption.
Qed.

End KeyResults.

Section GridResults.
Import Physics Linker.

(** ** The grid holds, under each key, the particles of that cell *)

Lemma bucket_or_nothing {B} (f : Ref -> list B)
    (g : gmap string (list Ref)) (k : string) :
  match g !! k with
  | Some bucket => flat_map f bucket
  | None => []
  end = flat_map f (default [] (g !! k)).
Proof. destruct (g !! k); reflexivity. Qed.

Lemma addToGrid_lookup (g : gmap string (list Ref)) (r : Ref) (k : string) :
  default [] (addToGrid g r !! k)
  = default [] (g !! k)
    ++ (if decide (cellKey (fst (cellOfRef r)) (snd (cellOfRef r)) = k)
        then [r] else []).
Proof.
  unfold addToGrid, cellOfRef. cbn [fst snd].
  set (key := cellKey _ _).
  destruct (g !! key) as [bucket|] eqn:E; destruct (decide (key = k)) as [<-|Hne].
  - rewrite lookup_alter_eq, E. reflexivity.
  - rewrite lookup_alter_ne by exact Hne. rewrite app_nil_r. reflexivity.
  - rewrite lookup_alter_eq, lookup_insert_eq, E. reflexivity.
  - rewrite lookup_alter_ne, lookup_insert_ne by exact Hne.
    rewrite app_nil_r. reflexivity.
Qed.

Lemma fold_addToGrid_lookup (rs : list Ref) (g : gmap string (list Ref))
    (k : string) :
  default [] (fold_left addToGrid rs g !! k)
  = default [] (g !! k)
    ++ List.filter
         (fun r => bool_decide
                     (cellKey (fst (cellOfRef r)) (snd (cellOfRef r)) = k))
         rs.
Proof.
  revert g. induction rs as [|r rs IH]; intros g; cbn [fold_left List.filter].
  - rewrite app_nil_r. reflexivity.
  - rewrite IH, addToGrid_lookup, <- app_assoc. f_equal.
    destruct (decide _) as [E|E].
    + rewrite bool_decide_eq_true_2 by exact E. reflexivity.
    + rewrite bool_decide_eq_false_2 by exact E. reflexivity.
Qed.

Lemma inCell_true (c : Z * Z) (r : Ref) :
  inCell c r = true <-> cellOfRef r = c.
Proof.
  unfold inCell. rewrite andb_true_iff, !Z.eqb_eq.
  destruct (cellOfRef r), c; cbn [fst snd]. split.
  - intros [-> ->]. reflexivity.
  - intros [= -> ->]. split; reflexivity.
Qed.

Lemma buildGrid_bucket (rs : list Ref) (cx cy : Z) :
  default [] (buildGrid rs !! cellKey cx cy) = bucketOf rs (cx, cy).
Proof.
  unfold buildGrid. rewrite fold_addToGrid_lookup, lookup_empty.
  cbn [default app]. unfold bucketOf. apply List.filter_ext. intros r.
  apply eq_true_iff_eq. rewrite bool_decide_eq_true, inCell_true. split.
  - intros E. apply cellKey_inj in E as [E1 E2].
    destruct (cellOfRef r); cbn [fst snd] in *. congruence.
  - intros ->. reflexivity.
Qed.

End GridResults.

Section LinkerResults.
Import Physics Linker.

Variable sqrt : Q -> Q.

Lemma scanAround_buckets (rs : list Ref) (p : Ref) :
  scanAround sqrt (buildGrid rs) p
  = flat_map (fun c => flat_map (examine sqrt p) (bucketOf rs c))
             (neighbourhood (cellOfRef p)).
Proof.
  unfold scanAround, neighbourhood, offsets, cellOfRef.
  cbn [flat_map map app fst snd].
  rewrite !bucket_or_nothing, !buildGrid_bucket.
  rewrite !app_nil_r, <- !app_assoc. reflexivity.
Qed.

(** ** Scanning buckets cell by cell is scanning the list, filtered *)

Lemma flat_map_nothing {A B} (cs : list A) :
  flat_map (fun _ : A => @nil B) cs = [].
Proof. induction cs; [reflexivity | assumption]. Qed.

Lemma flat_buckets_cons {B} (f : Ref -> list B) (r : Ref) (l : list Ref)
    (cs : list (Z * Z)) :
  NoDup cs ->
  flat_map (fun c => flat_map f (bucketOf (r :: l) c)) cs
  ≡ₚ (if bool_decide (cellOfRef r ∈ cs) then f r else [])
     ++ flat_map (fun c => flat_map f (bucketOf l c)) cs.
Proof.
  induction 1 as [|c cs Hc Hcs IH]; [reflexivity|].
  cbn [flat_map]. rewrite IH. unfold bucketOf at 1. cbn [List.filter].
  fold (bucketOf l c).
  destruct (inCell c r) eqn:E.
  - apply inCell_true in E. subst c.
    rewrite (bool_decide_eq_true_2 (cellOfRef r ∈ cellOfRef r :: cs))
      by left.
    rewrite (bool_decide_eq_false_2 _ Hc).
    cbn [flat_map app]. rewrite <- app_assoc. reflexivity.
  - assert (Hne : cellOfRef r <> c).
    { intros H. apply inCell_true in H. congruence. }
    rewrite (bool_decide_ext (cellOfRef r ∈ c :: cs) (cellOfRef r ∈ cs)).
    + rewrite !app_assoc. apply Permutation_app_tail, Permutation_app_comm.
    + rewrite elem_of_cons. tauto.
Qed.

Lemma flat_buckets {B} (f : Ref -> list B) (l : list Ref)
    (cs : list (Z * Z)) :
  NoDup cs ->
  flat_map (fun c => flat_map f (bucketOf l c)) cs
  ≡ₚ flat_map f (List.filter (fun r => bool_decide (cellOfRef r ∈ cs)) l).
Proof.
  intros Hcs. induction l as [|r l IH].
  - cbn [bucketOf List.filter flat_map]. rewrite flat_map_nothing.
    reflexivity.
  - rewrite flat_buckets_cons by exact Hcs. rewrite IH.
    cbn [List.filter]. destruct (bool_decide _); reflexivity.
Qed.

Lemma flat_map_filter_skip {A B} (f : A -> list B) (keep : A -> bool)
    (l : list A) :
  (forall a, keep a = false -> f a = []) ->
  flat_map f (List.filter keep l) = flat_map f l.
Proof.
  intros H. induction l as [|a l IH]; [reflexivity|].
  cbn [List.filter flat_map]. destruct (keep a) eqn:E.
  - cbn [flat_map]. rewrite IH. reflexivity.
  - rewrite (H a E), IH. reflexivity.
Qed.

Lemma neighbourhood_NoDup (c : Z * Z) : NoDup (neighbourhood c).
Proof.
  destruct c as [cx cy]. unfold neighbourhood, offsets.
  cbn [flat_map map app fst snd].
  repeat (apply NoDup_cons_2;
          [rewrite ?elem_of_cons, elem_of_nil; intros H;
           repeat (destruct H as [H|H]; [injection H; lia|]); exact H|]).
  apply NoDup_nil_2.
Qed.

Lemma neighbourhood_elem (c d : Z * Z) :
  (-1 <= fst d - fst c <= 1)%Z -> (-1 <= snd d - snd c <= 1)%Z ->
  d ∈ neighbourhood c.
Proof.
  destruct c as [cx cy], d as [dx dy]. cbn [fst snd]. intros Hx Hy.
  unfold neighbourhood, offsets. cbn [flat_map map app fst snd].
  assert (Ex : (dx = cx + -1 \/ dx = cx + 0 \/ dx = cx + 1)%Z) by lia.
  assert (Ey : (dy = cy + -1 \/ dy = cy + 0 \/ dy = cy + 1)%Z) by lia.
  rewrite !elem_of_cons.
  destruct Ex as [->|[->| ->]], Ey as [->|[->| ->]]; tauto.
Qed.


(** ** In-range neighbours lie in adjacent cells *)

Local Open Scope Q_scope.

Lemma cells_close (a b : Q) :
  -100 < b - a < 100 -> (-1 <= cellOf b - cellOf a <= 1)%Z.
Proof.
  unfold cellOf, gridSize. intros H.
  assert (Ea : a == 120 * (a / 120)) by (field; discriminate).
  assert (Eb : b == 120 * (b / 120)) by (field; discriminate).
  pose proof (Qfloor_le (a / 120)) as Ha1.
  pose proof (Qlt_floor (a / 120)) as Ha2.
  pose proof (Qfloor_le (b / 120)) as Hb1.
  pose proof (Qlt_floor (b / 120)) as Hb2.
  set (qa := a / 120) in *. set (qb := b / 120) in *.
  set (ca := Qfloor qa) in *. set (cb := Qfloor qb) in *.
  rewrite inject_Z_plus in Ha2, Hb2. change (inject_Z 1) with 1 in *.
  assert (H1 : inject_Z cb < inject_Z (ca + 2)).
  { rewrite inject_Z_plus. change (inject_Z 2) with 2. lra. }
  assert (H2 : inject_Z ca < inject_Z (cb + 2)).
  { rewrite inject_Z_plus. change (inject_Z 2) with 2. lra. }
  rewrite <- Zlt_Qlt in H1, H2. lia.
Qed.

Lemma in_range_offsets (p r : Ref) :
  sqDist p r < 10000 ->
  -100 < x (snd r) - x (snd p) < 100 /\ -100 < y (snd r) - y (snd p) < 100.
Proof.
  unfold sqDist. cbv zeta.
  set (dx := x (snd r) - x (snd p)). set (dy := y (snd r) - y (snd p)).
  intros H. assert (0 <= dx * dx) by nra. assert (0 <= dy * dy) by nra.
  repeat split; nra.
Qed.

Lemma in_range_adjacent (p r : Ref) :
  sqDist p r < 10000 ->
  (-1 <= fst (cellOfRef r) - fst (cellOfRef p) <= 1)%Z
  /\ (-1 <= snd (cellOfRef r) - snd (cellOfRef p) <= 1)%Z.
Proof.
  intros H. apply in_range_offsets in H as [Hx Hy].
  unfold cellOfRef. cbn [fst snd]. split; apply cells_close; assumption.
Qed.

Lemma examine_far (p r : Ref) :
  bool_decide (cellOfRef r ∈ neighbourhood (cellOfRef p)) = false ->
  examine sqrt p r = [].
Proof.
  intros Hfar. unfold examine. destruct (negb (same r p)); [|reflexivity].
  cbv zeta. destruct (ltb (sqDist p r) 10000) eqn:E; [|reflexivity].
  apply ltb_lt, in_range_adjacent in E as [Hx Hy].
  apply bool_decide_eq_false in Hfar. destruct Hfar.
  apply neighbourhood_elem; assumption.
Qed.

(** ** The scan around one particle against the scan of the array *)

Lemma scanAround_all (rs : list Ref) (p : Ref) :
  scanAround sqrt (buildGrid rs) p ≡ₚ flat_map (examine sqrt p) rs.
Proof.
  rewrite scanAround_buckets.
  rewrite flat_buckets by apply neighbourhood_NoDup.
  rewrite flat_map_filter_skip by apply examine_far. reflexivity.
Qed.

Lemma flat_map_pointwise {A B} (f g : A -> list B) (l : list A) :
  (forall a, f a ≡ₚ g a) -> flat_map f l ≡ₚ flat_map g l.
Proof.
  intros H. induction l as [|a l IH]; [reflexivity|].
  cbn [flat_map]. rewrite (H a), IH. reflexivity.
Qed.

Lemma connectParticles_all_pairs (particles : list (Particle Q)) :
  connectParticles sqrt particles ≡ₚ connectAllPairs sqrt particles.
Proof.
  unfold connectParticles, connectAllPairs.
  apply flat_map_pointwise. intros p. apply scanAround_all.
Qed.

(** ** Counting strokes *)

Lemma strokes_app (i j : nat) (l1 l2 : list Stroke) :
  strokesFromTo i j (l1 ++ l2)
  = (strokesFromTo i j l1 + strokesFromTo i j l2)%nat.
Proof. unfold strokesFromTo. rewrite List.filter_app, length_app. reflexivity. Qed.

Lemma strokes_perm (i j : nat) (l1 l2 : list Stroke) :
  l1 ≡ₚ l2 -> strokesFromTo i j l1 = strokesFromTo i j l2.
Proof.
  unfold strokesFromTo.
  induction 1 as [|s l1 l2 _ IH|s1 s2 l|l1 l2 l3 _ IH1 _ IH2];
    cbn [List.filter].
  - reflexivity.
  - destruct (_ && _); cbn [length]; rewrite IH; reflexivity.
  - do 2 destruct (_ && _); reflexivity.
  - rewrite IH1. exact IH2.
Qed.

Lemma strokes_examine (i j : nat) (p r : Ref) :
  strokesFromTo i j (examine sqrt p r)
  = if Nat.eqb (fst p) i && Nat.eqb (fst r) j
       && negb (same r p) && ltb (sqDist p r) 10000
    then 1%nat else 0%nat.
Proof.
  unfold examine, strokesFromTo. cbv zeta.
  destruct (negb (same r p)); [|rewrite !andb_false_r; reflexivity].
  destruct (ltb (sqDist p r) 10000); [|rewrite !andb_false_r; reflexivity].
  cbn [List.filter source target]. rewrite !andb_true_r.
  destruct (_ && _); reflexivity.
Qed.

Lemma strokes_flat_zero {A} (i j : nat) (f : A -> list Stroke)
    (l : list A) :
  (forall a, a ∈ l -> strokesFromTo i j (f a) = 0%nat) ->
  strokesFromTo i j (flat_map f l) = 0%nat.
Proof.
  induction l as [|a l IH]; intros H; [reflexivity|].
  cbn [flat_map]. rewrite strokes_app, H by left.
  apply IH. intros b Hb. apply H. right. exact Hb.
Qed.

Lemma strokes_flat_unique (i j : nat) (f : Ref -> list Stroke)
    (l : list Ref) (a : Ref) :
  NoDup (map fst l) -> a ∈ l ->
  (forall b, b ∈ l -> fst b <> fst a -> strokesFromTo i j (f b) = 0%nat) ->
  strokesFromTo i j (flat_map f l) = strokesFromTo i j (f a).
Proof.
  induction l as [|b l IH]; intros Hnd Ha Hz.
  - apply elem_of_nil in Ha. contradiction.
  - cbn [map] in Hnd. apply NoDup_cons in Hnd as [Hb Hnd].
    cbn [flat_map]. rewrite strokes_app.
    apply elem_of_cons in Ha as [<-|Ha].
    + rewrite strokes_flat_zero; [lia|].
      intros c Hc. apply Hz; [right; exact Hc|].
      intros E. apply Hb. rewrite <- E.
      apply (list_elem_of_fmap_2 fst). exact Hc.
    + rewrite Hz, IH; try assumption.
      * reflexivity.
      * intros c Hc. apply Hz. right. exact Hc.
      * left.
      * intros E. apply Hb. rewrite E.
        apply (list_elem_of_fmap_2 fst). exact Ha.
Qed.

Lemma refs_NoDup (particles : list (Particle Q)) :
  NoDup (map fst (refs particles)).
Proof.
  unfold refs.
  change (map fst (imap (fun i p => (i, p)) particles))
    with (fst <$> imap (fun i (p : Particle Q) => (i, p)) particles).
  rewrite fmap_imap.
  rewrite (imap_ext _ (fun i _ => i) particles) by reflexivity.
  rewrite imap_seq_0, list_fmap_id. apply NoDup_seq.
Qed.

Lemma refs_elem (particles : list (Particle Q)) (i : nat) (p : Particle Q) :
  particles !! i = Some p -> (i, p) ∈ refs particles.
Proof.
  intros H. unfold refs.
  apply (elem_of_lookup_imap_2 (fun i p => (i, p)) particles p i H).
Qed.

Lemma strokes_between (particles : list (Particle Q)) (i j : nat)
    (pi pj : Particle Q) :
  particles !! i = Some pi -> particles !! j = Some pj -> i <> j ->
  strokesFromTo i j (connectParticles sqrt particles)
  = if ltb (sqDist (i, pi) (j, pj)) 10000 then 1%nat else 0%nat.
Proof.
  intros Hi Hj Hne.
  rewrite (strokes_perm _ _ _ _ (connectParticles_all_pairs particles)).
  unfold connectAllPairs.
  rewrite (strokes_flat_unique i j _ _ (i, pi) (refs_NoDup particles)
             (refs_elem _ _ _ Hi)).
  - rewrite (strokes_flat_unique i j _ _ (j, pj) (refs_NoDup particles)
               (refs_elem _ _ _ Hj)).
    + rewrite strokes_examine. unfold same. cbn [fst].
      rewrite !Nat.eqb_refl. apply Nat.eqb_neq in Hne.
      rewrite Nat.eqb_sym, Hne. reflexivity.
    + intros b _ Hb. rewrite strokes_examine. cbn [fst] in *.
      apply Nat.eqb_neq in Hb. rewrite Hb, andb_false_r. reflexivity.
  - intros b _ Hb. apply strokes_flat_zero. intros c _.
    rewrite strokes_examine. cbn [fst] in *.
    apply Nat.eqb_neq in Hb. rewrite Hb. reflexivity.
Qed.


(** ** The linker against the all-pairs scan *)

Lemma sqDist_sym (p r : Ref) : sqDist r p == sqDist p r.
Proof. unfold sqDist. cbv zeta. ring. Qed.

Lemma in_range_sym (p r : Ref) :
  ltb (sqDist r p) 10000 = ltb (sqDist p r) 10000.
Proof.
  apply eq_true_iff_eq. rewrite !ltb_lt, sqDist_sym. reflexivity.
Qed.

(** C2. The grid-bucketed linker draws what the all-pairs scan draws:
    two particles at squared distance below 10000 have cell coordinates
    that differ by at most 1 on each axis, the strokes of
    [connectParticles] are a permutation of the strokes of the scan in
    which every particle examines every particle, and for two distinct
    particles the segment is stroked exactly once from each endpoint
    (twice per unordered pair) when their squared distance is below 10000
    and not at all otherwise. *)
Theorem grid_scan_draws_all_pairs_in_range (particles : list (Particle Q)) :
  (forall p r : Ref,
     sqDist p r < 10000 ->
     (-1 <= cellOf (x (snd r)) - cellOf (x (snd p)) <= 1)%Z
     /\ (-1 <= cellOf (y (snd r)) - cellOf (y (snd p)) <= 1)%Z)
  /\ connectParticles sqrt particles ≡ₚ connectAllPairs sqrt particles
  /\ (forall (i j : nat) (pi pj : Particle Q),
        particles !! i = Some pi -> particles !! j = Some pj -> i <> j ->
        (sqDist (i, pi) (j, pj) < 10000 ->
         strokesFromTo i j (connectParticles sqrt particles) = 1%nat
         /\ strokesFromTo j i (connectParticles sqrt particles) = 1%nat)
        /\ (10000 <= sqDist (i, pi) (j, pj) ->
            strokesFromTo i j (connectParticles sqrt particles) = 0%nat
            /\ strokesFromTo j i (connectParticles sqrt particles) = 0%nat)).
Proof.
  split; [|split].
  - intros p r H. apply in_range_adjacent in H. exact H.
  - apply connectParticles_all_pairs.
  - intros i j pi pj Hi Hj Hne.
    rewrite (strokes_between particles i j pi pj Hi Hj Hne).
    rewrite (strokes_between particles j i pj pi Hj Hi (not_eq_sym Hne)).
    rewrite (in_range_sym (i, pi) (j, pj)).
    destruct (ltb (sqDist (i, pi) (j, pj)) 10000) eqn:E.
    + apply ltb_lt in E. split; [intros _; split; reflexivity|].
      intros H. exfalso. lra.
    + apply ltb_ge in E. split; [|intros _; split; reflexivity].
      intros H. exfalso. lra.
Qed.

(** ** What one examination draws *)

Lemma examine_in_range (p r : Ref) :
  same r p = false -> sqDist p r < 10000 ->
  examine sqrt p r = [mkStroke p r (1 - sqrt (sqDist p r) / 100)].
Proof.
  intros Hs Hd. unfold examine. rewrite Hs. cbn [negb]. cbv zeta.
  apply ltb_lt in Hd. rewrite Hd. reflexivity.
Qed.

Lemma examine_out_of_range (p r : Ref) :
  ~ sqDist p r < 10000 -> examine sqrt p r = [].
Proof.
  intros Hd. unfold examine. destruct (negb (same r p)); [|reflexivity].
  cbv zeta. destruct (ltb (sqDist p r) 10000) eqn:E; [|reflexivity].
  apply ltb_lt in E. contradiction.
Qed.

Lemma examine_stroke (p r : Ref) (s : Stroke) :
  In s (examine sqrt p r) ->
  same (target s) (source s) = false
  /\ sqDist (source s) (target s) < 10000
  /\ strokeAlpha s = 1 - sqrt (sqDist (source s) (target s)) / 100.
Proof.
  unfold examine. destruct (same r p) eqn:Hs; cbn [negb]; [intros []|].
  cbv zeta. destruct (ltb (sqDist p r) 10000) eqn:Hd; [|intros []].
  intros [<-|[]]. cbn [source target strokeAlpha].
  apply ltb_lt in Hd. repeat split; assumption.
Qed.

Lemma connectParticles_stroke (particles : list (Particle Q)) (s : Stroke) :
  In s (connectParticles sqrt particles) ->
  same (target s) (source s) = false
  /\ sqDist (source s) (target s) < 10000
  /\ strokeAlpha s = 1 - sqrt (sqDist (source s) (target s)) / 100.
Proof.
  intros H.
  apply (Permutation_in _ (connectParticles_all_pairs particles)) in H.
  unfold connectAllPairs in H.
  apply in_flat_map in H as (p & _ & H).
  apply in_flat_map in H as (r & _ & H).
  apply examine_stroke in H. exact H.
Qed.

Hypothesis sqrt_square : forall a : Q, 0 <= a -> sqrt (a * a) == a.

Lemma fade_at_fifty : 1 - sqrt 2500 / 100 == 0.5.
Proof.
  assert (H : sqrt 2500 == 50) by (apply (sqrt_square 50); discriminate).
  rewrite H. reflexivity.
Qed.

(** C3. For two distinct particles the linker examines, a segment is
    stroked exactly when their squared distance is below 10000, and its
    opacity is [1 - sqrt dist / 100]; every stroke of [connectParticles]
    joins two distinct particles in range with that opacity.  Particles
    at (0,0) and (50,0) are linked, with opacity 0.5 (from each
    endpoint); particles at (0,0) and (150,0) are not linked. *)
Theorem link_iff_in_range_with_linear_fade :
  (forall p r : Ref,
     same r p = false ->
     (sqDist p r < 10000 ->
      examine sqrt p r = [mkStroke p r (1 - sqrt (sqDist p r) / 100)])
     /\ (~ sqDist p r < 10000 -> examine sqrt p r = []))
  /\ (forall (particles : list (Particle Q)) (s : Stroke),
        In s (connectParticles sqrt particles) ->
        same (target s) (source s) = false
        /\ sqDist (source s) (target s) < 10000
        /\ strokeAlpha s = 1 - sqrt (sqDist (source s) (target s)) / 100)
  /\ (exists a b : Q,
        connectParticles sqrt [pointAt 0 0; pointAt 50 0]
        = [mkStroke (0%nat, pointAt 0 0) (1%nat, pointAt 50 0) a;
           mkStroke (1%nat, pointAt 50 0) (0%nat, pointAt 0 0) b]
        /\ a == 0.5 /\ b == 0.5)
  /\ connectParticles sqrt [pointAt 0 0; pointAt 150 0] = [].
Proof.
  split; [|split; [|split]].
  - intros p r Hs. split.
    + apply examine_in_range, Hs.
    + apply examine_out_of_range.
  - apply connectParticles_stroke.
  - do 2 eexists. split; [vm_compute; reflexivity|].
    split; apply fade_at_fifty.
  - vm_compute. reflexivity.
Qed.

End LinkerResults.

Section LinkerExamples.
Import Physics Linker.
Local Open Scope Q_scope.

Example keys_of_cells :
  cellKey (cellOf (-10)) (cellOf 250) = "-1,2"%string
  /\ cellKey (cellOf 0) (cellOf 119.5) = "0,0"%string.
Proof. split; vm_compute; reflexivity. Qed.

(** Two particles on either side of a cell border, a third far away. *)
Example link_across_cells :
  exists s1 s2,
    connectParticles Qsqrt [pointAt 119 0; pointAt 500 500; pointAt 121 0]
    = [s1; s2]
    /\ fst (source s1) = 0%nat /\ fst (target s1) = 2%nat
    /\ fst (source s2) = 2%nat /\ fst (target s2) = 0%nat
    /\ strokeAlpha s1 == 0.98 /\ strokeAlpha s2 == 0.98.
Proof.
  do 2 eexists. split; [vm_compute; reflexivity|].
  repeat split; reflexivity.
Qed.

Lemma grid_scan_draws_all_pairs_in_range_witness :
  sqDist (0%nat, pointAt 119 0) (2%nat, pointAt 121 0) < 10000
  /\ strokesFromTo 0 2
       (connectParticles Qsqrt
          [pointAt 119 0; pointAt 500 500; pointAt 121 0]) = 1%nat
  /\ strokesFromTo 2 0
       (connectParticles Qsqrt
          [pointAt 119 0; pointAt 500 500; pointAt 121 0]) = 1%nat.
Proof.
  split; [reflexivity|].
  destruct (grid_scan_draws_all_pairs_in_range Qsqrt
              [pointAt 119 0; pointAt 500 500; pointAt 121 0])
    as (_ & _ & H).
  destruct (H 0%nat 2%nat (pointAt 119 0) (pointAt 121 0)
              eq_refl eq_refl) as [Hin _]; [discriminate|].
  apply Hin. reflexivity.
Defined.

Lemma link_iff_in_range_with_linear_fade_witness :
  (forall a : Q, 0 <= a -> Qsqrt (a * a) == a)
  /\ (exists a b : Q,
        connectParticles Qsqrt [pointAt 0 0; pointAt 50 0]
        = [mkStroke (0%nat, pointAt 0 0) (1%nat, pointAt 50 0) a;
           mkStroke (1%nat, pointAt 50 0) (0%nat, pointAt 0 0) b]
        /\ a == 0.5 /\ b == 0.5)
  /\ connectParticles Qsqrt [pointAt 0 0; pointAt 150 0] = [].
Proof.
  split; [exact Qsqrt_square|].
  destruct (link_iff_in_range_with_linear_fade Qsqrt Qsqrt_square)
    as (_ & _ & Hnear & Hfar).
  split; [exact Hnear | exact Hfar].
Defined.

End LinkerExamples.

(* ===================================================================== *)
(** * Further results: population sizing and the cursor                  *)
(* ===================================================================== *)

Section PopulationBounds.
Import Population.
Local Open Scope Z_scope.

Lemma adjustParticleCount_tables (c : Canvas) :
  adjustParticleCount c = widthClamp (width c) (heightCandidate (height c)).
Proof.
  destruct c as [w h].
  unfold adjustParticleCount, heightCandidate, widthClamp, at_index; simpl.
  repeat (destruct (_ <? _); simpl; try reflexivity).
Qed.

Lemma heightCandidate_mono (h1 h2 : Z) :
  h1 <= h2 -> heightCandidate h1 <= heightCandidate h2.
Proof.
  intros H. unfold heightCandidate.
  repeat (match goal with
          | |- context [?a <? ?b] => destruct (Z.ltb_spec a b)
          end); lia.
Qed.

Lemma widthClamp_mono (w1 w2 n1 n2 : Z) :
  w1 <= w2 -> n1 <= n2 -> widthClamp w1 n1 <= widthClamp w2 n2.
Proof.
  intros Hw Hn. unfold widthClamp.
  repeat (match goal with
          | |- context [?a <? ?b] => destruct (Z.ltb_spec a b)
          end); lia.
Qed.

Lemma adjustParticleCount_bounds (c : Canvas) :
  40 <= adjustParticleCount c <= 130.
Proof.
  rewrite adjustParticleCount_tables. unfold widthClamp, heightCandidate.
  repeat (match goal with
          | |- context [?a <? ?b] => destruct (Z.ltb_spec a b)
          end); lia.
Qed.

(** X1. The particle count is one of 40, 50, 60, 70, 90, 110, 130,
    whatever the canvas size (zero and negative sizes included). *)
Theorem adjustParticleCount_values (c : Canvas) :
  40 <= adjustParticleCount c <= 130
  /\ In (adjustParticleCount c) [40; 50; 60; 70; 90; 110; 130].
Proof.
  rewrite adjustParticleCount_tables. unfold widthClamp, heightCandidate.
  repeat (match goal with
          | |- context [?a <? ?b] => destruct (Z.ltb_spec a b)
          end); (split; [lia|]); cbn; lia.
Qed.

(** X2. A canvas that is at least as wide and at least as high gets at
    least as many particles. *)
Theorem adjustParticleCount_monotone (c1 c2 : Canvas) :
  width c1 <= width c2 -> height c1 <= height c2 ->
  adjustParticleCount c1 <= adjustParticleCount c2.
Proof.
  intros Hw Hh. rewrite !adjustParticleCount_tables.
  apply widthClamp_mono; [exact Hw|]. apply heightCandidate_mono, Hh.
Qed.

Lemma adjustParticleCount_monotone_witness :
  adjustParticleCount (mkCanvas 500 350)
  <= adjustParticleCount (mkCanvas 1000 700).
Proof.
  apply (adjustParticleCount_monotone (mkCanvas 500 350) (mkCanvas 1000 700));
    simpl; lia.
Defined.

End PopulationBounds.

Section CursorLastEvent.

(** X3. The cursor state after a non-empty sequence of pointer events is
    decided by the last event alone: the coordinates of a last
    [mousemove], both present, or both absent after a last
    [mouseleave], whatever the earlier events and the state before. *)
Theorem cursor_follows_last_event (es : list Mouse.Event)
    (st : Mouse.State) :
  (forall cx cy : Q,
     Mouse.deliver (es ++ [Mouse.mousemove cx cy]) st
     = Mouse.mkState (Some cx) (Some cy))
  /\ Mouse.deliver (es ++ [Mouse.mouseleave]) st = Mouse.initial.
Proof.
  split; [intros cx cy|]; rewrite deliver_snoc; reflexivity.
Qed.

End CursorLastEvent.

(* ===================================================================== *)
(** * Further results: the update step                                   *)
(* ===================================================================== *)

Section UpdateDetails.
Import Population Physics.
Local Open Scope Q_scope.

Variable sqrt : Q -> Q.
Hypothesis sqrt_pos : forall d : Q, 0 < d -> 0 < sqrt d.

Lemma divide_value (a b : Q) (n : nat) :
  ~ b == 0 -> divide a b n = Some (a / b, n).
Proof.
  intros H. unfold divide. destruct (Qeq_bool b 0) eqn:E; [|reflexivity].
  apply Qeq_bool_eq in E. contradiction.
Qed.

(** The ambient branch with the cursor's x absent: no attraction, two
    draws of jitter when [autoDrift] is on. *)
Lemma ambientStep_absent (w : World) (m : Mouse.State) (p : Particle Q)
    (n : nat) :
  Mouse.x m = None ->
  exists q,
    ambientStep sqrt w m (cursorDist m p) p n
    = Some (q, if autoDrift w then S (S n) else n)
    /\ sameButVelocity p q
    /\ vx q == (vx p + (if autoDrift w
                        then (random w n - 0.5) * 0.03 else 0)) * 0.998
    /\ vy q == (vy p + (if autoDrift w
                        then (random w (S n) - 0.5) * 0.03 else 0))
               * (if Mouse.isNull (Mouse.y m) then 0.998 else 0.99).
Proof.
  intros Hx. rewrite (cursorDist_absent m p Hx).
  unfold ambientStep, bind. rewrite Hx.
  change (truthy 0) with false. cbn [andb Mouse.isNull negb ret].
  destruct (autoDrift w); cbn [mathRandom ret];
    eexists; (split; [reflexivity|]);
    (split; [repeat split|]);
    cbn [vx vy set_vx set_vy]; destruct (Mouse.isNull (Mouse.y m));
    cbn [negb]; split; ring.
Qed.

(** The ambient branch with the cursor's x present: no draws; the
    attraction is added when the squared distance is not zero. *)
Lemma ambientStep_present (w : World) (m : Mouse.State) (p : Particle Q)
    (n : nat) (cx : Q) :
  Mouse.x m = Some cx ->
  exists q,
    ambientStep sqrt w m (cursorDist m p) p n = Some (q, n)
    /\ sameButVelocity p q
    /\ vx q == (vx p
                + (if truthy (cursorDist m p)
                   then (cx - x p) / sqrt (cursorDist m p)
                        * (if ltb (cursorDist m p) 22500
                           then (22500 - cursorDist m p) / 22500 else 0)
                        * 0.1
                   else 0)) * 0.99
    /\ vy q == (vy p
                + (if truthy (cursorDist m p)
                   then (Mouse.toNumber (Mouse.y m) - y p)
                        / sqrt (cursorDist m p)
                        * (if ltb (cursorDist m p) 22500
                           then (22500 - cursorDist m p) / 22500 else 0)
                        * 0.1
                   else 0))
               * (if Mouse.isNull (Mouse.y m) then 0.998 else 0.99).
Proof.
  intros Hx. pose proof (cursorDist_nonneg m p) as Hd.
  set (d := cursorDist m p) in *.
  unfold ambientStep, bind. rewrite Hx.
  cbn [andb Mouse.isNull negb ret Mouse.toNumber].
  destruct (truthy d) eqn:Ht.
  - pose proof Ht as Hnz. apply truthy_nonzero in Hnz.
    pose proof (sqrt_nonzero sqrt sqrt_pos d Hd Hnz) as Hs.
    cbn [andb]. destruct (ltb d 22500).
    + unfold divide at 1. change (Qeq_bool 22500 0) with false. cbn iota.
      rewrite divide_value by exact Hs. cbn iota beta.
      rewrite divide_value by exact Hs. cbn iota beta.
      eexists. split; [reflexivity|]. split; [repeat split|].
      cbn [vx vy set_vx set_vy x y]. destruct (Mouse.isNull (Mouse.y m));
        cbn [negb]; split; reflexivity.
    + cbn [ret]. rewrite divide_value by exact Hs. cbn iota beta.
      rewrite divide_value by exact Hs. cbn iota beta.
      eexists. split; [reflexivity|]. split; [repeat split|].
      cbn [vx vy set_vx set_vy x y]. destruct (Mouse.isNull (Mouse.y m));
        cbn [negb]; split; reflexivity.
  - cbn [andb ret]. eexists. split; [reflexivity|]. split; [repeat split|].
    cbn [vx vy set_vx set_vy]. destruct (Mouse.isNull (Mouse.y m));
      cbn [negb]; split; ring.
Qed.

Lemma update_ambient_finish (w : World) (m : Mouse.State) (p q : Particle Q)
    (n n' : nat) :
  isFirework p = false ->
  ambientStep sqrt w m (cursorDist m p) p n = Some (q, n') ->
  update sqrt w m p n = Some (finish w q, n').
Proof.
  intros Hf Hq. unfold update, bind. rewrite Hf. cbn [negb].
  rewrite Hq. reflexivity.
Qed.

Lemma finish_gray (w : World) (q : Particle Q) :
  gray (finish w q) = gray q.
Proof. unfold finish. rewrite pulse_eq, bounce_eq. reflexivity. Qed.

Lemma finish_trail (w : World) (q : Particle Q) :
  trail (finish w q) = trail q.
Proof. unfold finish. rewrite pulse_eq, bounce_eq. reflexivity. Qed.

(** X4. [update] never changes what kind of particle it is, its gray
    level or its trail: after any sequence of calls a particle is still
    ambient or still a firework, with the colour it was built with and
    the same (empty) trail. *)
Theorem update_keeps_kind_and_colour (w : World) (calls : list Call)
    (p : Particle Q) :
  exists p', updates sqrt w calls p = Some p'
             /\ isFirework p' = isFirework p
             /\ gray p' = gray p
             /\ trail p' = trail p.
Proof.
  apply (updates_invariant sqrt
           (fun q => isFirework q = isFirework p /\ gray q = gray p
                     /\ trail q = trail p) w); [|repeat split].
  intros m q n (Hf & Hg & Ht). destruct (isFirework q) eqn:Hq.
  - exists (finish w (fireworkStep q)), n.
    split; [apply update_firework, Hq|].
    rewrite finish_isFirework, finish_gray, finish_trail. cbn.
    rewrite Hq. repeat split; assumption.
  - destruct (update_ambient sqrt sqrt_pos w m q n Hq) as (r & n' & Hu & Hs).
    exists (finish w r), n'. split; [exact Hu|].
    rewrite finish_isFirework, finish_gray, finish_trail.
    unfold sameButVelocity in Hs.
    destruct Hs as (-> & _ & _ & _ & -> & _ & _ & ->).
    rewrite Hq. repeat split; assumption.
Qed.

Lemma update_ambient_calls (w : World) (m : Mouse.State) (p : Particle Q)
    (n : nat) :
  isFirework p = false ->
  exists p',
    update sqrt w m p n
    = Some (p', if Mouse.isNull (Mouse.x m) && autoDrift w
                then S (S n) else n).
Proof.
  intros Hf. destruct (Mouse.x m) as [cx|] eqn:Hx; cbn [Mouse.isNull andb].
  - destruct (ambientStep_present w m p n cx Hx) as (q & Hq & _).
    exists (finish w q). apply update_ambient_finish; assumption.
  - destruct (ambientStep_absent w m p n Hx) as (q & Hq & _).
    exists (finish w q). apply update_ambient_finish; assumption.
Qed.

(** X5. One [update] call makes exactly two [Math.random()] calls when
    the particle is ambient, the cursor's x is null and [autoDrift] is
    on, and none otherwise. *)
Theorem update_random_calls (w : World) (m : Mouse.State) (p : Particle Q)
    (n : nat) :
  exists p',
    update sqrt w m p n
    = Some (p', if negb (isFirework p) && Mouse.isNull (Mouse.x m)
                   && autoDrift w
                then (n + 2)%nat else n).
Proof.
  destruct (isFirework p) eqn:Hf; cbn [negb andb].
  - eexists. apply update_firework, Hf.
  - destruct (update_ambient_calls w m p n Hf) as (p' & Hu).
    exists p'. rewrite Hu. do 2 f_equal.
    destruct (Mouse.isNull (Mouse.x m) && autoDrift w); lia.
Qed.

(** X6. A cursor that sits exactly on an ambient particle, or 150 units
    or more away from it, does not attract it: the call makes no draw
    and the particle moves by 0.99 times its old velocity. *)
Theorem cursor_out_of_reach (w : World) (p : Particle Q) (n : nat)
    (cx cy : Q) :
  isFirework p = false ->
  cursorDist (Mouse.mkState (Some cx) (Some cy)) p == 0
  \/ 22500 <= cursorDist (Mouse.mkState (Some cx) (Some cy)) p ->
  exists p',
    update sqrt w (Mouse.mkState (Some cx) (Some cy)) p n = Some (p', n)
    /\ x p' == x p + vx p * 0.99
    /\ y p' == y p + vy p * 0.99.
Proof.
  intros Hf Hd. set (m := Mouse.mkState (Some cx) (Some cy)) in *.
  destruct (ambientStep_present w m p n cx eq_refl)
    as (q & Hq & Hs & Hvx & Hvy).
  exists (finish w q). split; [apply update_ambient_finish; assumption|].
  rewrite finish_x, finish_y. unfold sameButVelocity in Hs.
  destruct Hs as (_ & -> & -> & _). rewrite Hvx, Hvy. cbn [Mouse.y m Mouse.isNull].
  destruct (truthy (cursorDist m p)) eqn:Ht.
  - destruct Hd as [Hd|Hd]; [apply truthy_nonzero in Ht; contradiction|].
    apply ltb_ge in Hd. rewrite Hd. split; ring.
  - split; ring.
Qed.

Lemma quotient_pos (a s : Q) : 0 < s -> 0 < a -> 0 < a / s.
Proof. intros Hs Ha. apply Qlt_shift_div_l; [exact Hs | lra]. Qed.

Lemma quotient_neg (a s : Q) : 0 < s -> a < 0 -> a / s < 0.
Proof. intros Hs Ha. apply Qlt_shift_div_r; [exact Hs | lra]. Qed.

(** X7. Within reach (squared distance not zero and below 22500) the
    attraction moves an ambient particle toward the cursor on each axis:
    the step along an axis exceeds 0.99 times the old velocity when the
    cursor lies on the positive side, and falls short of it when the
    cursor lies on the negative side. *)
Theorem cursor_pulls_toward_itself (w : World) (p : Particle Q) (n : nat)
    (cx cy : Q) :
  isFirework p = false ->
  ~ cursorDist (Mouse.mkState (Some cx) (Some cy)) p == 0 ->
  cursorDist (Mouse.mkState (Some cx) (Some cy)) p < 22500 ->
  exists p',
    update sqrt w (Mouse.mkState (Some cx) (Some cy)) p n = Some (p', n)
    /\ (x p < cx -> x p + vx p * 0.99 < x p')
    /\ (cx < x p -> x p' < x p + vx p * 0.99)
    /\ (y p < cy -> y p + vy p * 0.99 < y p')
    /\ (cy < y p -> y p' < y p + vy p * 0.99).
Proof.
  intros Hf Hnz Hlt. set (m := Mouse.mkState (Some cx) (Some cy)) in *.
  destruct (ambientStep_present w m p n cx eq_refl)
    as (q & Hq & Hs & Hvx & Hvy).
  exists (finish w q). split; [apply update_ambient_finish; assumption|].
  rewrite finish_x, finish_y. unfold sameButVelocity in Hs.
  destruct Hs as (_ & -> & -> & _). rewrite Hvx, Hvy.
  cbn [Mouse.y m Mouse.isNull Mouse.toNumber].
  pose proof (cursorDist_nonneg m p) as Hd.
  assert (Hpos : 0 < cursorDist m p).
  { apply Qle_lteq in Hd. destruct Hd as [?|E]; [assumption|].
    symmetry in E. contradiction. }
  apply truthy_nonzero in Hnz. rewrite Hnz.
  pose proof Hlt as Hb. apply ltb_lt in Hb. rewrite Hb.
  set (d := cursorDist m p) in *.
  assert (Hforce : 0 < (22500 - d) / 22500).
  { apply quotient_pos; lra. }
  pose proof (sqrt_pos d Hpos) as Hroot.
  set (force := (22500 - d) / 22500) in *.
  repeat split; intros H.
  - pose proof (quotient_pos (cx - x p) (sqrt d) Hroot ltac:(lra)) as Hu.
    pose proof (Qmult_lt_0_compat _ _ Hu Hforce). lra.
  - pose proof (quotient_neg (cx - x p) (sqrt d) Hroot ltac:(lra)) as Hu.
    assert (0 < - ((cx - x p) / sqrt d)) by lra.
    pose proof (Qmult_lt_0_compat _ _ H0 Hforce). lra.
  - pose proof (quotient_pos (cy - y p) (sqrt d) Hroot ltac:(lra)) as Hu.
    pose proof (Qmult_lt_0_compat _ _ Hu Hforce). lra.
  - pose proof (quotient_neg (cy - y p) (sqrt d) Hroot ltac:(lra)) as Hu.
    assert (0 < - ((cy - y p) / sqrt d)) by lra.
    pose proof (Qmult_lt_0_compat _ _ H0 Hforce). lra.
Qed.

Lemma idle_step (w : World) (m : Mouse.State) (p : Particle Q) (n : nat)
    (B : Q) :
  (forall k, 0 <= random w k < 1) -> 7.485 <= B ->
  Mouse.x m = None ->
  isFirework p = false /\ - B <= vx p <= B /\ - B <= vy p <= B ->
  exists p' n',
    update sqrt w m p n = Some (p', n')
    /\ (isFirework p' = false /\ - B <= vx p' <= B /\ - B <= vy p' <= B).
Proof.
  intros Hr HB Hx (Hf & Hvx & Hvy).
  destruct (ambientStep_absent w m p n Hx) as (q & Hq & Hs & Hqx & Hqy).
  exists (finish w q). eexists.
  split; [apply update_ambient_finish; eassumption|].
  rewrite finish_isFirework, finish_vx, finish_vy.
  unfold sameButVelocity in Hs. destruct Hs as (-> & _).
  split; [exact Hf|].
  pose proof (Hr n) as H1. pose proof (Hr (S n)) as H2.
  assert (Hbx : - B <= vx q <= B).
  { rewrite Hqx. destruct (autoDrift w); lra. }
  assert (Hby : - B <= vy q <= B).
  { rewrite Hqy.
    destruct (autoDrift w); destruct (Mouse.isNull (Mouse.y m)); lra. }
  split.
  - destruct (leb _ 0 || leb _ _); lra.
  - destruct (ltb _ 0 || ltb _ _); lra.
Qed.

(** X8. While the cursor is absent an ambient particle's velocity stays
    bounded: for any bound [B] of at least 7.485, velocity components
    within [[-B, B]] are within [[-B, B]] after any number of [update]
    calls, whatever the jitter draws in [[0, 1)] -- the 0.998 damping
    outweighs the jitter of at most 0.015 per call. *)
Theorem idle_velocity_stays_bounded (w : World) (calls : list Call)
    (p : Particle Q) (B : Q) :
  (forall k, 0 <= random w k < 1) ->
  7.485 <= B ->
  Forall (fun c => Mouse.x (cursor c) = None) calls ->
  isFirework p = false ->
  - B <= vx p <= B -> - B <= vy p <= B ->
  exists p', updates sqrt w calls p = Some p'
             /\ - B <= vx p' <= B /\ - B <= vy p' <= B.
Proof.
  intros Hr HB Hcalls Hf Hvx Hvy.
  assert (Hinv : isFirework p = false /\ - B <= vx p <= B
                 /\ - B <= vy p <= B) by tauto.
  clear Hf Hvx Hvy. revert p Hinv.
  induction Hcalls as [|c rest Hc _ IH]; intros p Hinv.
  - exists p. split; [reflexivity | tauto].
  - destruct (idle_step w (cursor c) p (drawn c) B Hr HB Hc Hinv)
      as (p1 & n1 & Hu & Hinv1).
    destruct (IH p1 Hinv1) as (p' & Hr' & Hb).
    exists p'. split; [|exact Hb]. simpl. rewrite Hu. exact Hr'.
Qed.

(** X9. A firework particle never speeds up: each [update] leaves a
    velocity component as it is or multiplies it by -0.9, so components
    within [[-V, V]] stay within [[-V, V]] over any number of calls. *)
Theorem firework_never_speeds_up (w : World) (calls : list Call)
    (p : Particle Q) (V : Q) :
  isFirework p = true ->
  - V <= vx p <= V -> - V <= vy p <= V ->
  (forall m n, exists p1,
     update sqrt w m p n = Some (p1, n)
     /\ (vx p1 = vx p \/ vx p1 = vx p * -0.9)
     /\ (vy p1 = vy p \/ vy p1 = vy p * -0.9))
  /\ exists p', updates sqrt w calls p = Some p'
                /\ - V <= vx p' <= V /\ - V <= vy p' <= V.
Proof.
  intros Hf Hvx Hvy. split.
  - intros m n. exists (finish w (fireworkStep p)).
    split; [apply update_firework, Hf|].
    rewrite finish_vx, finish_vy. cbn [fireworkStep set_alpha vx vy].
    split; [destruct (leb _ 0 || leb _ _) | destruct (ltb _ 0 || ltb _ _)];
      tauto.
  - destruct (updates_invariant sqrt
                (fun q => isFirework q = true /\ - V <= vx q <= V
                          /\ - V <= vy q <= V) w) with (calls := calls) (p := p)
      as (p' & Hr & _ & Hb); [|tauto|exists p'; tauto].
    intros m q n (Hq & Hqx & Hqy).
    exists (finish w (fireworkStep q)), n.
    split; [apply update_firework, Hq|].
    rewrite finish_isFirework, finish_vx, finish_vy.
    cbn [fireworkStep set_alpha vx vy isFirework].
    split; [exact Hq|].
    split; [destruct (leb _ 0 || leb _ _) | destruct (ltb _ 0 || ltb _ _)];
      lra.
Qed.

(** X10. Death is permanent: a particle that [isDead] reports dead is
    reported dead after any further [update] calls. *)
Theorem dead_stays_dead (w : World) (calls : list Call) (p : Particle Q) :
  isDead p = true ->
  exists p', updates sqrt w calls p = Some p' /\ isDead p' = true.
Proof.
  apply (updates_invariant sqrt (fun q => isDead q = true) w).
  intros m q n Hq. apply isDead_iff in Hq as [Hf Ha].
  destruct (update_firework_alpha sqrt w m q n Hf) as (q' & Hu & Hq' & Hf').
  exists q', n. split; [exact Hu|]. apply isDead_iff.
  split; [exact Hf'|]. rewrite Hq'. lra.
Qed.

(** X21. The size moves by exactly 0.1 per [update], up or down, and
    an overshoot lasts one call: for a particle whose direction is 1 or
    -1, whose size is in [[0.9, 4.1]] and whose direction points back
    inside whenever the size is outside [[1, 4]] (the state every
    constructed particle stays in), a size above 4 or below 1 is back in
    [[1, 4]] after the next call. *)
Theorem overshoot_is_corrected (w : World) (m : Mouse.State)
    (p : Particle Q) (n : nat) :
  pulsing p ->
  exists p' n',
    update sqrt w m p n = Some (p', n')
    /\ (size p' == size p + 0.1 \/ size p' == size p - 0.1)
    /\ (4 < size p \/ size p < 1 -> 1 <= size p' <= 4).
Proof.
  intros (Hd & Hs & Hhi & Hlo).
  assert (Hq : exists q n', update sqrt w m p n = Some (finish w q, n')
                            /\ size q = size p
                            /\ sizeDirection q = sizeDirection p).
  { destruct (isFirework p) eqn:Hf.
    - exists (fireworkStep p), n. split; [apply update_firework, Hf|].
      split; reflexivity.
    - destruct (update_ambient sqrt sqrt_pos w m p n Hf) as (q & n' & Hu & Hq).
      exists q, n'. split; [exact Hu|]. unfold sameButVelocity in Hq. tauto. }
  destruct Hq as (q & n' & Hu & Hsize & Hdir).
  exists (finish w q), n'. split; [exact Hu|].
  rewrite finish_size, Hsize, Hdir. split.
  - destruct Hd as [Hd|Hd]; rewrite Hd; [left | right]; ring.
  - intros [H|H].
    + rewrite (Hhi H). lra.
    + rewrite (Hlo H). lra.
Qed.

End UpdateDetails.

Section UpdateDetailsExamples.
Import Population Physics.
Local Open Scope Q_scope.

Lemma cursor_out_of_reach_witness :
  (forall d : Q, 0 < d -> 0 < Qsqrt d)
  /\ exists p',
       update Qsqrt idleWorld (Mouse.mkState (Some 700) (Some 300))
         (mkParticle false 400 300 2 (-1) 2 128 1 1 []) 0%nat
       = Some (p', 0%nat)
       /\ x p' == 400 + 2 * 0.99 /\ y p' == 300 + -1 * 0.99.
Proof.
  split; [exact Qsqrt_pos|].
  apply (cursor_out_of_reach Qsqrt Qsqrt_pos idleWorld
           (mkParticle false 400 300 2 (-1) 2 128 1 1 []) 0%nat 700 300).
  - reflexivity.
  - right. vm_compute. discriminate.
Defined.

Lemma cursor_pulls_toward_itself_witness :
  (forall d : Q, 0 < d -> 0 < Qsqrt d)
  /\ exists p',
       update Qsqrt idleWorld (Mouse.mkState (Some 430) (Some 260))
         (ambient 2 1) 0%nat = Some (p', 0%nat)
       /\ 400 < x p' /\ y p' < 300.
Proof.
  split; [exact Qsqrt_pos|].
  destruct (cursor_pulls_toward_itself Qsqrt Qsqrt_pos idleWorld
              (ambient 2 1) 0%nat 430 260)
    as (p' & Hu & Hx & _ & _ & Hy).
  - reflexivity.
  - vm_compute. discriminate.
  - reflexivity.
  - exists p'. split; [exact Hu|]. split.
    + apply (Qle_lt_trans _ (x (ambient 2 1) + vx (ambient 2 1) * 0.99));
        [vm_compute; discriminate | apply Hx; reflexivity].
    + apply (Qlt_le_trans _ (y (ambient 2 1) + vy (ambient 2 1) * 0.99));
        [apply Hy; reflexivity | vm_compute; discriminate].
Defined.

Lemma idle_velocity_stays_bounded_witness :
  (forall k, 0 <= random idleWorld k < 1)
  /\ exists p',
       updates Qsqrt idleWorld [cursorAbsent; cursorAbsent; cursorAbsent]
         falling = Some p'
       /\ - (10) <= vx p' <= 10 /\ - (10) <= vy p' <= 10.
Proof.
  assert (Hr : forall k, 0 <= random idleWorld k < 1).
  { intros k. split; [discriminate | reflexivity]. }
  split; [exact Hr|].
  apply (idle_velocity_stays_bounded Qsqrt idleWorld
           [cursorAbsent; cursorAbsent; cursorAbsent] falling 10 Hr).
  - discriminate.
  - repeat constructor.
  - reflexivity.
  - split; discriminate.
  - split; discriminate.
Defined.

Lemma firework_never_speeds_up_witness :
  exists p', updates Qsqrt idleWorld (repeat cursorAbsent 20) spark = Some p'
             /\ - (1) <= vx p' <= 1 /\ - (1) <= vy p' <= 1.
Proof.
  destruct (firework_never_speeds_up Qsqrt idleWorld
              (repeat cursorAbsent 20) spark 1 eq_refl) as (_ & H).
  - split; discriminate.
  - split; discriminate.
  - exact H.
Defined.

Lemma dead_stays_dead_witness :
  exists p',
    updates Qsqrt idleWorld [cursorAbsent; cursorAt 1 1]
      (mkParticle true 400 300 1 1 3 128 (-0.02) 1 []) = Some p'
    /\ isDead p' = true.
Proof.
  apply (dead_stays_dead Qsqrt idleWorld [cursorAbsent; cursorAt 1 1]
           (mkParticle true 400 300 1 1 3 128 (-0.02) 1 [])).
  reflexivity.
Defined.

End UpdateDetailsExamples.

(* ===================================================================== *)
(** * Further results: the grid and the linker                           *)
(* ===================================================================== *)

Section GridDetails.
Import Physics Linker.

Lemma addToGrid_nonempty (g : gmap string (list Ref)) (r : Ref) :
  (forall k b, g !! k = Some b -> b <> []) ->
  forall k b, addToGrid g r !! k = Some b -> b <> [].
Proof.
  intros Hg k b. unfold addToGrid.
  set (key := cellKey _ _).
  destruct (g !! key) as [bucket|] eqn:E;
    destruct (decide (key = k)) as [<-|Hne].
  - rewrite lookup_alter_eq, E. cbn. intros [= <-].
    intros H. apply app_eq_nil in H as [_ H]. discriminate.
  - rewrite lookup_alter_ne by exact Hne. apply Hg.
  - rewrite lookup_alter_eq, lookup_insert_eq. cbn. intros [= <-].
    discriminate.
  - rewrite lookup_alter_ne, lookup_insert_ne by exact Hne. apply Hg.
Qed.

Lemma fold_addToGrid_nonempty (rs : list Ref) (g : gmap string (list Ref)) :
  (forall k b, g !! k = Some b -> b <> []) ->
  forall k b, fold_left addToGrid rs g !! k = Some b -> b <> [].
Proof.
  revert g. induction rs as [|r rs IH]; intros g Hg; [exact Hg|].
  cbn [fold_left]. apply IH, addToGrid_nonempty, Hg.
Qed.

(** X11. The grid holds exactly the occupied cells: under a key it has
    the particles whose cell has that key, in array order, and no entry
    at all (never an empty bucket) when no particle lies in that cell;
    so every particle is found in the bucket of its own cell. *)
Theorem buildGrid_buckets (rs : list Ref) :
  (forall k : string,
     let inside :=
       List.filter
         (fun r => bool_decide
                     (cellKey (fst (cellOfRef r)) (snd (cellOfRef r)) = k))
         rs in
     buildGrid rs !! k = match inside with [] => None | _ => Some inside end)
  /\ (forall r, In r rs ->
        exists bucket,
          buildGrid rs !! cellKey (fst (cellOfRef r)) (snd (cellOfRef r))
          = Some bucket
          /\ In r bucket).
Proof.
  assert (Hk : forall k : string,
            buildGrid rs !! k
            = match List.filter
                      (fun r => bool_decide
                         (cellKey (fst (cellOfRef r)) (snd (cellOfRef r)) = k))
                      rs
              with [] => None | b => Some b end).
  { intros k.
    pose proof (fold_addToGrid_lookup rs ∅ k) as Hl.
    rewrite lookup_empty in Hl. cbn [default app] in Hl.
    pose proof (fold_addToGrid_nonempty rs ∅) as Hn.
    fold (buildGrid rs) in Hl, Hn.
    destruct (buildGrid rs !! k) as [b|] eqn:E; cbn [default] in Hl.
    - rewrite <- Hl. destruct b as [|r b]; [|reflexivity].
      exfalso. apply (Hn ltac:(intros ? ?; rewrite lookup_empty; discriminate)
                        k [] E). reflexivity.
    - rewrite <- Hl. reflexivity. }
  split.
  { intros k. cbv zeta. rewrite Hk. destruct (List.filter _ rs); reflexivity. }
  intros r Hr. rewrite Hk.
  set (key := cellKey _ _).
  assert (Hin : In r (List.filter
            (fun r0 => bool_decide
               (cellKey (fst (cellOfRef r0)) (snd (cellOfRef r0)) = key)) rs)).
  { apply List.filter_In. split; [exact Hr|].
    apply bool_decide_eq_true. reflexivity. }
  destruct (List.filter _ rs) as [|a b]; [destruct Hin|].
  exists (a :: b). split; [reflexivity | exact Hin].
Qed.

End GridDetails.

Section LinkerDetails.
Import Physics Linker.
Local Open Scope Q_scope.

Variable sqrt : Q -> Q.

Lemma examine_self (p : Ref) : examine sqrt p p = [].
Proof. unfold examine, same. rewrite Nat.eqb_refl. reflexivity. Qed.

Lemma examine_short (p r : Ref) : (length (examine sqrt p r) <= 1)%nat.
Proof.
  unfold examine. destruct (negb (same r p)); [|cbn; lia].
  cbv zeta. destruct (ltb _ 10000); cbn; lia.
Qed.

Lemma examine_ends (p r : Ref) (s : Stroke) :
  In s (examine sqrt p r) -> source s = p /\ target s = r.
Proof.
  unfold examine. destruct (negb (same r p)); [|intros []].
  cbv zeta. destruct (ltb _ 10000); [|intros []].
  intros [<-|[]]. split; reflexivity.
Qed.

Lemma refs_lookup (particles : list (Particle Q)) (r : Ref) :
  In r (refs particles) -> particles !! fst r = Some (snd r).
Proof.
  intros H. apply list_elem_of_In in H. unfold refs in H.
  apply elem_of_lookup_imap_1 in H as (i & p & -> & Hp). exact Hp.
Qed.

Lemma length_flat_map_one_less {A B} (f : A -> list B) (l : list A) (a : A) :
  In a l -> f a = [] -> (forall b, (length (f b) <= 1)%nat) ->
  (length (flat_map f l) <= length l - 1)%nat.
Proof.
  intros Ha Hz H1. induction l as [|b l IH]; [destruct Ha|].
  cbn [flat_map length]. rewrite length_app.
  destruct Ha as [->|Ha].
  - rewrite Hz. cbn [length].
    assert ((length (flat_map f l) <= length l)%nat).
    { clear IH. induction l as [|c l IHl]; [cbn; lia|].
      cbn [flat_map length]. rewrite length_app.
      specialize (H1 c). lia. }
    lia.
  - specialize (IH Ha). specialize (H1 b).
    destruct l as [|c l]; [destruct Ha|]. cbn [length] in *. lia.
Qed.

Lemma length_flat_map_bound {A B} (f : A -> list B) (l : list A) (k : nat) :
  (forall a, In a l -> (length (f a) <= k)%nat) ->
  (length (flat_map f l) <= length l * k)%nat.
Proof.
  induction l as [|a l IH]; intros H; [cbn; lia|].
  cbn [flat_map length]. rewrite length_app.
  specialize (H a (or_introl eq_refl)) as Ha.
  specialize (IH (fun b Hb => H b (or_intror Hb))). lia.
Qed.

(** X12. The linker draws nothing for an empty array or a single
    particle; every stroke it draws runs between two elements of the
    array, from the element at the source index to the element at the
    target index; and for [n] particles it draws at most [n * (n - 1)]
    strokes. *)
Theorem connectParticles_stays_in_the_array
    (particles : list (Particle Q)) :
  connectParticles sqrt [] = []
  /\ (forall p, connectParticles sqrt [p] = [])
  /\ (forall s, In s (connectParticles sqrt particles) ->
        particles !! fst (source s) = Some (snd (source s))
        /\ particles !! fst (target s) = Some (snd (target s)))
  /\ (length (connectParticles sqrt particles)
      <= length particles * (length particles - 1))%nat.
Proof.
  split; [reflexivity|]. split; [|split].
  - intros p. apply Permutation_nil. symmetry.
    rewrite (connectParticles_all_pairs sqrt [p]).
    unfold connectAllPairs. cbn [refs imap flat_map app].
    rewrite examine_self. reflexivity.
  - intros s H.
    apply (Permutation_in _ (connectParticles_all_pairs sqrt particles)) in H.
    unfold connectAllPairs in H.
    apply in_flat_map in H as (p & Hp & H).
    apply in_flat_map in H as (r & Hr & H).
    apply examine_ends in H as [-> ->].
    split; apply refs_lookup; assumption.
  - rewrite (Permutation_length (connectParticles_all_pairs sqrt particles)).
    unfold connectAllPairs.
    replace (length particles) with (length (refs particles))
      by (unfold refs; apply length_imap).
    apply length_flat_map_bound. intros p Hp.
    apply (length_flat_map_one_less _ _ p Hp (examine_self p)).
    intros r. apply examine_short.
Qed.

Hypothesis sqrt_nonneg : forall d : Q, 0 <= d -> 0 <= sqrt d.
Hypothesis sqrt_below : forall d : Q, 0 <= d -> sqrt d * sqrt d <= d.

Lemma sqDist_nonneg (p r : Ref) : 0 <= sqDist p r.
Proof.
  unfold sqDist. cbv zeta.
  set (dx := x (snd r) - x (snd p)). set (dy := y (snd r) - y (snd p)).
  assert (0 <= dx * dx) by nra. assert (0 <= dy * dy) by nra. lra.
Qed.

(** X13. Every stroke the linker draws has an opacity in [(0, 1]]: with
    a square root that is non-negative and does not exceed the true
    root, [1 - sqrt dist / 100] is positive for [dist < 10000] and at
    most 1. *)
Theorem stroke_opacity_in_range (particles : list (Particle Q))
    (s : Stroke) :
  In s (connectParticles sqrt particles) ->
  0 < strokeAlpha s <= 1.
Proof.
  intros H. apply connectParticles_stroke in H as (_ & Hd & ->).
  pose proof (sqDist_nonneg (source s) (target s)) as Hn.
  set (d := sqDist (source s) (target s)) in *.
  pose proof (sqrt_nonneg d Hn) as H0. pose proof (sqrt_below d Hn) as H1.
  set (root := sqrt d) in *.
  assert (Hroot : root < 100) by nra.
  unfold Qdiv. change (/ 100) with (1 # 100). lra.
Qed.

End LinkerDetails.

Section LinkerDetailsExamples.
Import Physics Linker.
Local Open Scope Q_scope.

Lemma Qsqrt_nonneg (d : Q) : 0 <= d -> 0 <= Qsqrt d.
Proof.
  intros _. destruct d as [n den]. unfold Qsqrt, Qle; simpl.
  rewrite Z.mul_1_r. apply Z.sqrt_nonneg.
Qed.

Lemma Qsqrt_below (d : Q) : 0 <= d -> Qsqrt d * Qsqrt d <= d.
Proof.
  destruct d as [n den]. unfold Qsqrt, Qle; simpl. intros H.
  rewrite Z.mul_1_r in H.
  pose proof (Z.sqrt_spec (n * Z.pos den) ltac:(nia)) as [Hs _].
  rewrite Pos2Z.inj_mul. nia.
Qed.

Lemma stroke_opacity_in_range_witness :
  (forall d : Q, 0 <= d -> 0 <= Qsqrt d)
  /\ (forall d : Q, 0 <= d -> Qsqrt d * Qsqrt d <= d)
  /\ 0 < strokeAlpha
           (mkStroke (0%nat, pointAt 119 0) (2%nat, pointAt 121 0)
                     (1 - Qsqrt 4 / 100)) <= 1.
Proof.
  split; [exact Qsqrt_nonneg|]. split; [exact Qsqrt_below|].
  apply (stroke_opacity_in_range Qsqrt Qsqrt_nonneg Qsqrt_below
           [pointAt 119 0; pointAt 500 500; pointAt 121 0]).
  vm_compute. left. reflexivity.
Defined.

End LinkerDetailsExamples.

(* ===================================================================== *)
(** * Further results: painting, construction and the population         *)
(* ===================================================================== *)

Section PaintingResults.
Import Population Physics Driver.
Local Open Scope Q_scope.

Variable sqrt : Q -> Q.
Hypothesis sqrt_pos : forall d : Q, 0 < d -> 0 < sqrt d.

Lemma mathMax_zero (a : Q) :
  0 <= mathMax a 0 /\ (a <= 1 -> mathMax a 0 <= 1)
  /\ (0 <= a -> mathMax a 0 = a).
Proof.
  unfold mathMax. destruct (ltb a 0) eqn:E.
  - apply ltb_lt in E. repeat split; intros; lra.
  - apply ltb_ge in E. repeat split; intros; try lra; reflexivity.
Qed.

Lemma update_paintable (w : World) (m : Mouse.State) (q : Particle Q)
    (n : nat) :
  pulsing q /\ alpha q <= 1 ->
  exists q' n', update sqrt w m q n = Some (q', n')
                /\ (pulsing q' /\ alpha q' <= 1).
Proof.
  intros [Hp Ha]. destruct (isFirework q) eqn:Hf.
  - exists (finish w (fireworkStep q)), n.
    split; [apply update_firework, Hf|]. split.
    + apply pulsing_finish. revert Hp. apply pulsing_same; reflexivity.
    + rewrite finish_alpha. cbn. lra.
  - destruct (update_ambient sqrt sqrt_pos w m q n Hf) as (r & n' & Hu & Hs).
    exists (finish w r), n'. split; [exact Hu|].
    unfold sameButVelocity in Hs. split.
    + apply pulsing_finish. revert Hp. apply pulsing_same; tauto.
    + rewrite finish_alpha.
      destruct Hs as (_ & _ & _ & _ & _ & -> & _). exact Ha.
Qed.

(** X14. What [draw] paints is always a valid circle: for a particle
    that starts with [alpha <= 1], a size in [[1, 4]] and a direction of
    1 or -1, after any number of [update] calls the painted opacity is
    in [[0, 1]] (a faded firework is painted with opacity 0, never a
    negative one) and the radius is in [[0.9, 4.1]], so never negative. *)
Theorem draw_paints_valid_circle (w : World) (calls : list Call)
    (p : Particle Q) :
  alpha p <= 1 -> 1 <= size p <= 4 ->
  sizeDirection p == 1 \/ sizeDirection p == -1 ->
  exists p' opacity,
    updates sqrt w calls p = Some p'
    /\ draw p' = circle (gray p') opacity (x p') (y p') (size p')
    /\ 0 <= opacity <= 1
    /\ (alpha p' <= 0 -> opacity == 0)
    /\ 0.9 <= size p' <= 4.1.
Proof.
  intros Ha Hs Hd.
  destruct (updates_invariant sqrt (fun q => pulsing q /\ alpha q <= 1) w
              (update_paintable w) calls p) as (p' & Hr & Hp' & Ha').
  { split; [|exact Ha]. unfold pulsing.
    repeat split; try tauto; try lra; intros; lra. }
  exists p', (mathMax (alpha p') 0). split; [exact Hr|].
  split; [reflexivity|].
  pose proof (mathMax_zero (alpha p')) as (H0 & H1 & H2).
  split; [split; [exact H0 | apply H1, Ha']|].
  split.
  - intros Hz. unfold mathMax. destruct (ltb (alpha p') 0) eqn:E.
    + reflexivity.
    + apply ltb_ge in E. lra.
  - unfold pulsing in Hp'. tauto.
Qed.

End PaintingResults.

Section ConstructionOverQ.
Import Population Physics Driver.
Local Open Scope Q_scope.

Variables cos sin : Q -> Q.
Variable PI : Q.

(** X15. [new Particle(x, y, isFirework)] makes exactly six
    [Math.random()] calls and, for draws in [[0, 1)], returns a particle
    at the given position with [alpha = 1], an empty trail, a gray level
    in [[0, 255)], a size direction of 1 or -1, a size in [[1, 4)] (in
    [[2, 4)] for a firework), and velocity components that are the
    cosine and the sine of the second and third draws' angles times a
    base speed in [[0.3, 0.8)] (in [[1, 3)] for a firework). *)
Theorem newParticle_fields (w : World) (px py : Q) (fw : bool) (n : nat) :
  unitDraws w ->
  exists p baseSpeed,
    newParticle cos sin PI w px py fw n = Some (p, (n + 6)%nat)
    /\ isFirework p = fw /\ x p = px /\ y p = py
    /\ alpha p = 1 /\ trail p = []
    /\ 0 <= gray p < 255
    /\ (sizeDirection p = 1 \/ sizeDirection p = -1)
    /\ (if fw then 2 <= size p < 4 else 1 <= size p < 4)
    /\ (if fw then 1 <= baseSpeed < 3 else 0.3 <= baseSpeed < 0.8)
    /\ vx p = cos (random w (n + 1) * PI * 2) * baseSpeed
    /\ vy p = sin (random w (n + 2) * PI * 2) * baseSpeed.
Proof.
  intros Hr. unfold newParticle, bind, mathRandom, ret.
  replace (n + 6)%nat with (S (S (S (S (S (S n)))))) by lia.
  replace (n + 1)%nat with (S n) by lia.
  replace (n + 2)%nat with (S (S n)) by lia.
  eexists. exists (if fw then random w n * 2 + 1 else random w n * 0.5 + 0.3).
  split; [reflexivity|]. cbn [isFirework x y alpha trail gray sizeDirection
                               size vx vy].
  pose proof (Hr n). pose proof (Hr (S (S (S n)))).
  pose proof (Hr (S (S (S (S n))))).
  repeat split; try reflexivity; try lra.
  - destruct (ltb _ 0.5); tauto.
  - destruct fw; lra.
  - destruct fw; lra.
Qed.

Lemma newParticle_newborn (w : World) (px py : Q) (n : nat) :
  unitDraws w ->
  exists p, newParticle cos sin PI w px py false n = Some (p, (n + 6)%nat)
            /\ newborn p /\ x p = px /\ y p = py.
Proof.
  intros Hr. unfold newParticle, bind, mathRandom, ret.
  replace (n + 6)%nat with (S (S (S (S (S (S n)))))) by lia.
  eexists. split; [reflexivity|]. unfold newborn.
  cbn [isFirework x y alpha trail gray sizeDirection size].
  pose proof (Hr (S (S (S n)))). pose proof (Hr (S (S (S (S n))))).
  repeat split; try reflexivity; try lra.
  destruct (ltb _ 0.5); tauto.
Qed.

Lemma pushParticles_newborn (w : World) (k : nat) :
  unitDraws w ->
  forall (acc : list (Particle Q)) (n : nat),
  exists ps,
    pushParticles cos sin PI w k acc n = Some (acc ++ ps, (n + 8 * k)%nat)
    /\ length ps = k
    /\ Forall (fun p =>
                 newborn p
                 /\ exists i, x p = random w i * inject_Z (width (canvas w))
                              /\ y p = random w (S i)
                                       * inject_Z (height (canvas w)))
              ps.
Proof.
  intros Hr. induction k as [|k IH]; intros acc n.
  - exists []. rewrite app_nil_r, Nat.mul_0_r, Nat.add_0_r.
    repeat split. constructor.
  - cbn [pushParticles]. unfold bind at 1. cbn [mathRandom].
    unfold bind at 1. cbn [mathRandom]. unfold bind at 1.
    destruct (newParticle_newborn w
                (random w n * inject_Z (width (canvas w)))
                (random w (S n) * inject_Z (height (canvas w)))
                (S (S n)) Hr) as (p & Hp & Hnew & Hx & Hy).
    rewrite Hp.
    destruct (IH (acc ++ [p]) (S (S n) + 6)%nat) as (ps & Hps & Hlen & Hall).
    exists (p :: ps). rewrite Hps. split.
    + rewrite <- app_assoc. cbn [app]. do 2 f_equal. lia.
    + split; [cbn [length]; lia|]. constructor; [|exact Hall].
      split; [exact Hnew|]. exists n. split; assumption.
Qed.

Lemma createParticles_newborn (w : World) (old : list (Particle Q))
    (n : nat) :
  unitDraws w ->
  exists ps,
    createParticles cos sin PI w old n = Some (ps, (n + 8 * length ps)%nat)
    /\ length ps = Z.to_nat (adjustParticleCount (canvas w))
    /\ Forall newborn ps.
Proof.
  intros Hr.
  destruct (pushParticles_newborn w
              (Z.to_nat (adjustParticleCount (canvas w))) Hr [] n)
    as (ps & Hps & Hlen & Hall).
  exists ps. split; [|split; [exact Hlen|]].
  - unfold createParticles. rewrite Hps, Hlen. reflexivity.
  - eapply Forall_impl; [exact Hall|]. cbn. tauto.
Qed.

(** X16. [createParticles()] discards whatever the array held and
    returns exactly [adjustParticleCount()] particles, between 40 and
    130, making eight [Math.random()] calls per particle; for draws in
    [[0, 1)] on a canvas with non-negative sizes, each particle is
    ambient with [alpha = 1], a size in [[1, 4)], a direction of 1 or
    -1, and a position within the canvas rectangle. *)
Theorem createParticles_population (w : World) (n : nat) :
  unitDraws w ->
  (0 <= width (canvas w))%Z -> (0 <= height (canvas w))%Z ->
  exists ps,
    (forall old : list (Particle Q),
       createParticles cos sin PI w old n
       = Some (ps, (n + 8 * length ps)%nat))
    /\ length ps = Z.to_nat (adjustParticleCount (canvas w))
    /\ (40 <= length ps <= 130)%nat
    /\ Forall (fun p => newborn p
                        /\ 0 <= x p <= inject_Z (width (canvas w))
                        /\ 0 <= y p <= inject_Z (height (canvas w))) ps.
Proof.
  intros Hr Hw Hh.
  destruct (pushParticles_newborn w
              (Z.to_nat (adjustParticleCount (canvas w))) Hr [] n)
    as (ps & Hps & Hlen & Hall).
  exists ps. split; [|split; [exact Hlen|split]].
  - intros old. unfold createParticles. rewrite Hps, Hlen. reflexivity.
  - rewrite Hlen.
    pose proof (adjustParticleCount_bounds (canvas w)). lia.
  - assert (HW : 0 <= inject_Z (width (canvas w))).
    { change 0 with (inject_Z 0). rewrite <- Zle_Qle. exact Hw. }
    assert (HH : 0 <= inject_Z (height (canvas w))).
    { change 0 with (inject_Z 0). rewrite <- Zle_Qle. exact Hh. }
    eapply Forall_impl; [exact Hall|]. cbn.
    intros p (Hnew & i & -> & ->). split; [exact Hnew|].
    pose proof (Hr i). pose proof (Hr (S i)). split; nra.
Qed.

End ConstructionOverQ.

(* ===================================================================== *)
(** * Further results: the frame driver and the whole program            *)
(* ===================================================================== *)

Section FrameResults.
Import Population Physics Linker Driver.
Local Open Scope Q_scope.

Variable sqrt : Q -> Q.
Hypothesis sqrt_pos : forall d : Q, 0 < d -> 0 < sqrt d.

Lemma update_returns (w : World) (m : Mouse.State) (p : Particle Q)
    (n : nat) :
  exists p' n', update sqrt w m p n = Some (p', n').
Proof.
  destruct (isFirework p) eqn:Hf.
  - exists (finish w (fireworkStep p)), n. apply update_firework, Hf.
  - destruct (update_ambient sqrt sqrt_pos w m p n Hf) as (q & n' & Hu & _).
    exists (finish w q), n'. exact Hu.
Qed.

(** The [forEach] of a frame: every particle is updated once, in array
    order, and painted as it is after its own update. *)
Lemma updateAndDraw_each (w : World) (m : Mouse.State)
    (ps : list (Particle Q)) (n : nat) :
  exists ps' n',
    updateAndDraw sqrt w m ps n = Some ((ps', map draw ps'), n')
    /\ Forall2 (fun p p' => exists k k', update sqrt w m p k = Some (p', k'))
               ps ps'.
Proof.
  revert n. induction ps as [|p ps IH]; intros n.
  - exists [], n. split; [reflexivity | constructor].
  - destruct (update_returns w m p n) as (p' & n1 & Hu).
    destruct (IH n1) as (ps' & n' & Hr & Hall).
    exists (p' :: ps'), n'. split.
    + cbn [updateAndDraw]. unfold bind at 1. rewrite Hu.
      unfold bind at 1. rewrite Hr. reflexivity.
    + constructor; [exists n, n1; exact Hu | exact Hall].
Qed.

(** X17. One frame never fails.  It leaves the canvas, the cursor and
    the number of particles as they are and counts the frame; it paints
    the background first, then one circle per particle in array order,
    each showing the particle as it is after its own update, then the
    links, which are computed from the updated particles. *)
Theorem animate_frame (st : Program) :
  exists ps' n',
    animate sqrt st
    = Some (mkProgram (world st) ps' (mouse st) (S (frameCount st)) n',
            drawBackground (world st)
            :: map draw ps' ++ map line (connectParticles sqrt ps'))
    /\ length ps' = length (particles st)
    /\ Forall2 (fun p p' =>
                  exists k k',
                    update sqrt (world st) (mouse st) p k = Some (p', k'))
               (particles st) ps'.
Proof.
  destruct (updateAndDraw_each (world st) (mouse st) (particles st)
              (randomCalls st)) as (ps' & n' & Hr & Hall).
  exists ps', n'. split; [|split; [|exact Hall]].
  - unfold animate. rewrite Hr. reflexivity.
  - symmetry. apply (Forall2_length _ _ _ Hall).
Qed.

Lemma updateAndDraw_calls (w : World) (m : Mouse.State)
    (ps : list (Particle Q)) (n : nat) :
  Forall (fun p => isFirework p = false) ps ->
  exists r,
    updateAndDraw sqrt w m ps n
    = Some (r, if Mouse.isNull (Mouse.x m) && autoDrift w
               then (n + 2 * length ps)%nat else n).
Proof.
  intros Hall. revert n. induction Hall as [|p ps Hp _ IH]; intros n.
  - eexists. cbn [updateAndDraw ret length].
    destruct (_ && _); [rewrite Nat.mul_0_r, Nat.add_0_r|]; reflexivity.
  - destruct (update_ambient_calls sqrt sqrt_pos w m p n Hp) as (p' & Hu).
    cbn [updateAndDraw]. unfold bind at 1. rewrite Hu.
    change (length (p :: ps)) with (S (length ps)).
    destruct (Mouse.isNull (Mouse.x m) && autoDrift w) eqn:E.
    + destruct (IH (S (S n))) as (r & Hr).
      unfold bind at 1. rewrite Hr.
      exists (p' :: fst r, draw p' :: snd r). unfold ret.
      do 2 f_equal. lia.
    + destruct (IH n) as (r & Hr).
      unfold bind at 1. rewrite Hr.
      exists (p' :: fst r, draw p' :: snd r). reflexivity.
Qed.

(** X18. A frame over an all-ambient population makes two
    [Math.random()] calls per particle when the cursor's x is null and
    [autoDrift] is on, and none when the cursor is present. *)
Theorem frame_random_calls (st : Program) :
  Forall (fun p => isFirework p = false) (particles st) ->
  exists st' painted,
    animate sqrt st = Some (st', painted)
    /\ randomCalls st'
       = if Mouse.isNull (Mouse.x (mouse st)) && autoDrift (world st)
         then (randomCalls st + 2 * length (particles st))%nat
         else randomCalls st.
Proof.
  intros Hall.
  destruct (updateAndDraw_calls (world st) (mouse st) (particles st)
              (randomCalls st) Hall) as ([ps' painted] & Hr).
  unfold animate. rewrite Hr. do 2 eexists. split; reflexivity.
Qed.

End FrameResults.

Section ProgramResults.
Import Population Physics Linker Driver.
Local Open Scope Q_scope.

Variables sqrt cos sin : Q -> Q.
Variable PI : Q.
Hypothesis sqrt_pos : forall d : Q, 0 < d -> 0 < sqrt d.

Lemma newborn_settled (p : Particle Q) : newborn p -> settled p.
Proof.
  unfold newborn, settled, pulsing.
  intros (Hf & Ha & _ & Hs & Hd & _).
  split; [exact Hf|]. split; [exact Ha|].
  split; [destruct Hd as [-> | ->]; [left | right]; reflexivity|].
  split; [lra|]. split; intros; lra.
Qed.

Lemma update_settled (w : World) (m : Mouse.State) (p p' : Particle Q)
    (k k' : nat) :
  settled p -> update sqrt w m p k = Some (p', k') -> settled p'.
Proof.
  intros (Hf & Ha & Hp) Hu.
  destruct (update_ambient sqrt sqrt_pos w m p k Hf) as (q & n' & Hq & Hs).
  rewrite Hq in Hu. injection Hu as <- _.
  unfold sameButVelocity in Hs. unfold settled.
  rewrite finish_isFirework, finish_alpha.
  split; [destruct Hs as (-> & _); exact Hf|].
  split; [destruct Hs as (_ & _ & _ & _ & _ & -> & _); exact Ha|].
  apply pulsing_finish. revert Hp. apply pulsing_same; tauto.
Qed.

Lemma settled_wellPainted (p : Particle Q) :
  settled p -> wellPainted (draw p).
Proof.
  intros (_ & Ha & Hp). unfold draw, wellPainted. rewrite Ha.
  split; [reflexivity|]. unfold pulsing in Hp. tauto.
Qed.

Lemma resizeCanvas_healthy (innerWidth innerHeight : Z) (st : Program) :
  unitDraws (world st) -> Mouse.paired (mouse st) ->
  exists st',
    resizeCanvas cos sin PI innerWidth innerHeight st = Some st'
    /\ healthy st' /\ unitDraws (world st')
    /\ frameCount st' = frameCount st.
Proof.
  intros Hr Hm. unfold resizeCanvas.
  set (w := mkWorld _ _ _).
  destruct (createParticles_newborn cos sin PI w (particles st)
              (randomCalls st) Hr) as (ps & Hps & Hlen & Hall).
  rewrite Hps. eexists. split; [reflexivity|].
  split; [|split; [exact Hr | reflexivity]].
  unfold healthy. cbn [particles world mouse].
  split; [exact Hlen|]. split; [|exact Hm].
  eapply Forall_impl; [exact Hall|]. apply newborn_settled.
Qed.

Lemma animate_healthy (st : Program) :
  healthy st ->
  exists st' painted,
    animate sqrt st = Some (st', painted)
    /\ healthy st' /\ Forall wellPainted painted
    /\ world st' = world st /\ frameCount st' = S (frameCount st).
Proof.
  intros (Hlen & Hall & Hm).
  destruct (updateAndDraw_each sqrt sqrt_pos (world st) (mouse st)
              (particles st) (randomCalls st)) as (ps' & n' & Hr & H2).
  assert (Hall' : Forall settled ps').
  { clear Hr Hlen. induction H2 as [|p p' ps ps' (k & k' & Hu) _ IH].
    - constructor.
    - apply Forall_cons in Hall as [Hp Hall].
      constructor; [exact (update_settled _ _ _ _ _ _ Hp Hu) | exact (IH Hall)]. }
  unfold animate. rewrite Hr. do 2 eexists. split; [reflexivity|].
  split; [|split; [|split; reflexivity]].
  - unfold healthy. cbn [particles world mouse].
    split; [|split; assumption].
    rewrite <- Hlen. symmetry. apply (Forall2_length _ _ _ H2).
  - constructor; [exact I|]. apply Forall_app. split.
    + clear Hr H2. induction Hall' as [|p ps Hp _ IH]; constructor;
        [apply settled_wellPainted, Hp | exact IH].
    + apply Forall_forall. intros c Hc.
      apply list_elem_of_In, in_map_iff in Hc as (s & <- & _). exact I.
Qed.

Lemma step_healthy (i : Input) (st : Program) :
  healthy st /\ unitDraws (world st) ->
  exists st' painted,
    step sqrt cos sin PI i st = Some (st', painted)
    /\ (healthy st' /\ unitDraws (world st'))
    /\ Forall wellPainted painted
    /\ frameCount st' = (frameCount st + ticks [i])%nat.
Proof.
  intros [Hh Hr]. destruct i as [e|iw ih|]; cbn [step ticks].
  - do 2 eexists. split; [reflexivity|].
    split; [|split; [constructor | cbn; lia]].
    split; [|exact Hr]. destruct Hh as (Hlen & Hall & _).
    split; [exact Hlen|]. split; [exact Hall | apply handle_paired].
  - destruct Hh as (_ & _ & Hm).
    destruct (resizeCanvas_healthy iw ih st Hr Hm) as (st' & Hs & Hh' & Hr' & Hf).
    rewrite Hs. exists st', []. split; [reflexivity|].
    split; [split; assumption|]. split; [constructor | lia].
  - destruct (animate_healthy st Hh) as (st' & painted & Ha & Hh' & Hp & Hw & Hf).
    exists st', painted. split; [exact Ha|].
    split; [split; [exact Hh' | rewrite Hw; exact Hr]|].
    split; [exact Hp | lia].
Qed.

Lemma run_healthy (inputs : list Input) (st : Program) :
  healthy st /\ unitDraws (world st) ->
  exists st' painted,
    run sqrt cos sin PI inputs st = Some (st', painted)
    /\ healthy st' /\ Forall wellPainted painted
    /\ frameCount st' = (frameCount st + ticks inputs)%nat.
Proof.
  revert st. induction inputs as [|i rest IH]; intros st Hinv.
  - exists st, []. split; [reflexivity|]. split; [tauto|].
    split; [constructor | cbn; lia].
  - destruct (step_healthy i st Hinv) as (st1 & p1 & Hs & Hinv1 & Hp1 & Hf1).
    destruct (IH st1 Hinv1) as (st' & p2 & Hr & Hh & Hp2 & Hf2).
    exists st', (p1 ++ p2). split; [cbn [run]; rewrite Hs, Hr; reflexivity|].
    split; [exact Hh|]. split; [apply Forall_app; split; assumption|].
    rewrite Hf2, Hf1. destruct i; cbn [ticks]; lia.
Qed.

(** X19. The whole program keeps its population sound.  From the
    script's start ([resizeCanvas()] on the loaded page) and through any
    sequence of pointer events, resizes and frames, with draws in
    [[0, 1)]: nothing fails; the array holds exactly
    [adjustParticleCount()] particles for the current canvas, each
    ambient, with [alpha = 1] and a size in [[0.9, 4.1]]; the cursor has
    both coordinates or none; every circle painted on the way is fully
    opaque with a radius in [[0.9, 4.1]]; and [frameCount] is the number
    of frames run. *)
Theorem program_stays_healthy (c : Canvas) (rnd : nat -> Q)
    (innerWidth innerHeight : Z) (inputs : list Input) :
  (forall k, 0 <= rnd k < 1) ->
  exists st' painted,
    run sqrt cos sin PI (resize innerWidth innerHeight :: inputs)
        (loaded c rnd) = Some (st', painted)
    /\ healthy st'
    /\ Forall wellPainted painted
    /\ frameCount st' = ticks inputs.
Proof.
  intros Hr.
  destruct (resizeCanvas_healthy innerWidth innerHeight (loaded c rnd))
    as (st1 & Hs & Hh1 & Hr1 & Hf1).
  { exact Hr. }
  { unfold Mouse.paired. cbn. tauto. }
  destruct (run_healthy inputs st1 (conj Hh1 Hr1))
    as (st' & painted & Hrun & Hh & Hp & Hf).
  exists st', painted. split; [|split; [exact Hh|split; [exact Hp|]]].
  - cbn [run step]. rewrite Hs, Hrun. reflexivity.
  - rewrite Hf, Hf1. reflexivity.
Qed.

(** X20. [resizeCanvas()] sets the canvas to the window's inner size and
    replaces the population by [adjustParticleCount()] new particles for
    that size; it leaves the cursor and [frameCount] alone, and the new
    population does not depend on the old one: two programs that differ
    only in their particles, cursor and frame count get the same
    particles. *)
Theorem resizeCanvas_regenerates (innerWidth innerHeight : Z)
    (st : Program) :
  unitDraws (world st) ->
  exists st',
    resizeCanvas cos sin PI innerWidth innerHeight st = Some st'
    /\ canvas (world st') = mkCanvas innerWidth innerHeight
    /\ length (particles st')
       = Z.to_nat (adjustParticleCount (mkCanvas innerWidth innerHeight))
    /\ Forall newborn (particles st')
    /\ mouse st' = mouse st /\ frameCount st' = frameCount st
    /\ randomCalls st' = (randomCalls st + 8 * length (particles st'))%nat
    /\ (forall other : Program,
          world other = world st -> randomCalls other = randomCalls st ->
          exists other',
            resizeCanvas cos sin PI innerWidth innerHeight other
            = Some other'
            /\ particles other' = particles st').
Proof.
  intros Hr. unfold resizeCanvas.
  set (w := mkWorld _ _ _).
  destruct (createParticles_newborn cos sin PI w (particles st)
              (randomCalls st) Hr) as (ps & Hps & Hlen & Hall).
  rewrite Hps. eexists. split; [reflexivity|].
  cbn [particles world mouse frameCount randomCalls canvas].
  repeat split; try assumption.
  intros other Hw Hn. rewrite Hw, Hn. fold w.
  unfold createParticles in *. rewrite Hps. eexists.
  split; reflexivity.
Qed.

End ProgramResults.

Section ProgramExamples.
Import Population Physics Linker Driver.
Local Open Scope Q_scope.

Lemma sampleRandom_unit : unitDraws sampleWorld.
Proof.
  intros k. cbn [random sampleWorld]. unfold sampleRandom.
  set (z := Z.of_nat _).
  assert (Hz : (0 <= z < 100)%Z).
  { subst z. pose proof (Nat.mod_upper_bound (k * 37 + 11) 100). lia. }
  unfold Qdiv, Qmult, Qinv, Qle, Qlt, inject_Z. simpl. lia.
Qed.

(** [resizeCanvas()] on a 300 x 150 window with the sample functions:
    40 particles from 320 draws. *)
Example resize_small_window :
  exists st',
    resizeCanvas sampleCos sampleSin samplePI 300 150
      (loaded (mkCanvas 300 150) sampleRandom) = Some st'
    /\ length (particles st') = 40%nat
    /\ randomCalls st' = 320%nat.
Proof.
  eexists. split; [vm_compute; reflexivity|]. split; reflexivity.
Qed.

(** One frame of three particles with the cursor absent: background,
    three circles, the link between the first two from each end; six
    draws. *)
Example frame_of_three :
  exists st' painted,
    animate Qsqrt smallProgram = Some (st', painted)
    /\ length painted = 6%nat /\ randomCalls st' = 6%nat
    /\ frameCount st' = 1%nat.
Proof.
  do 2 eexists. split; [vm_compute; reflexivity|]. repeat split.
Qed.

Lemma update_keeps_kind_and_colour_witness :
  (forall d : Q, 0 < d -> 0 < Qsqrt d)
  /\ exists p',
       updates Qsqrt idleWorld [cursorAt 410 300; cursorAbsent] (ambient 2 1)
       = Some p'
       /\ isFirework p' = false /\ gray p' = 128.
Proof.
  split; [exact Qsqrt_pos|].
  destruct (update_keeps_kind_and_colour Qsqrt Qsqrt_pos idleWorld
              [cursorAt 410 300; cursorAbsent] (ambient 2 1))
    as (p' & Hr & Hf & Hg & _).
  exists p'. split; [exact Hr|]. split; assumption.
Defined.

Lemma update_random_calls_witness :
  (forall d : Q, 0 < d -> 0 < Qsqrt d)
  /\ (exists p', update Qsqrt idleWorld Mouse.initial (ambient 2 1) 7%nat
                 = Some (p', 9%nat))
  /\ (exists p', update Qsqrt idleWorld (cursor (cursorAt 410 300))
                   (ambient 2 1) 7%nat = Some (p', 7%nat)).
Proof.
  split; [exact Qsqrt_pos|]. split.
  - apply (update_random_calls Qsqrt Qsqrt_pos idleWorld Mouse.initial
             (ambient 2 1) 7%nat).
  - apply (update_random_calls Qsqrt Qsqrt_pos idleWorld
             (cursor (cursorAt 410 300)) (ambient 2 1) 7%nat).
Defined.

Lemma draw_paints_valid_circle_witness :
  (forall d : Q, 0 < d -> 0 < Qsqrt d)
  /\ exists p' opacity,
       updates Qsqrt idleWorld (repeat cursorAbsent 60) spark = Some p'
       /\ draw p' = circle (gray p') opacity (x p') (y p') (size p')
       /\ 0 <= opacity <= 1
       /\ 0.9 <= size p' <= 4.1.
Proof.
  split; [exact Qsqrt_pos|].
  destruct (draw_paints_valid_circle Qsqrt Qsqrt_pos idleWorld
              (repeat cursorAbsent 60) spark)
    as (p' & o & Hr & Hd & Ho & _ & Hs).
  - discriminate.
  - split; discriminate.
  - left. reflexivity.
  - exists p', o. repeat split; try assumption; tauto.
Defined.

Lemma newParticle_fields_witness :
  unitDraws sampleWorld
  /\ exists p baseSpeed,
       newParticle sampleCos sampleSin samplePI sampleWorld 10 20 false 0%nat
       = Some (p, 6%nat)
       /\ x p = 10 /\ y p = 20 /\ alpha p = 1
       /\ 1 <= size p < 4
       /\ 0.3 <= baseSpeed < 0.8.
Proof.
  split; [exact sampleRandom_unit|].
  destruct (newParticle_fields sampleCos sampleSin samplePI sampleWorld
              10 20 false 0%nat sampleRandom_unit)
    as (p & s & Hp & _ & Hx & Hy & Ha & _ & _ & _ & Hs & Hb & _).
  exists p, s. repeat split; try assumption; try tauto.
Defined.

Lemma createParticles_population_witness :
  unitDraws sampleWorld
  /\ exists ps,
       createParticles sampleCos sampleSin samplePI sampleWorld
         [pointAt 1 1] 0%nat = Some (ps, (0 + 8 * length ps)%nat)
       /\ length ps = 40%nat.
Proof.
  split; [exact sampleRandom_unit|].
  destruct (createParticles_population sampleCos sampleSin samplePI
              sampleWorld 0%nat sampleRandom_unit)
    as (ps & Hc & Hlen & _); [discriminate | discriminate |].
  exists ps. split; [apply Hc | exact Hlen].
Defined.

Lemma animate_frame_witness :
  (forall d : Q, 0 < d -> 0 < Qsqrt d)
  /\ exists st' painted,
       animate Qsqrt smallProgram = Some (st', painted)
       /\ length (particles st') = 3%nat
       /\ frameCount st' = 1%nat.
Proof.
  split; [exact Qsqrt_pos|].
  destruct (animate_frame Qsqrt Qsqrt_pos smallProgram)
    as (ps' & n' & Ha & Hlen & _).
  do 2 eexists. split; [exact Ha|]. split; [exact Hlen | reflexivity].
Defined.

Lemma frame_random_calls_witness :
  (forall d : Q, 0 < d -> 0 < Qsqrt d)
  /\ Forall (fun p => isFirework p = false) (particles smallProgram)
  /\ exists st' painted,
       animate Qsqrt smallProgram = Some (st', painted)
       /\ randomCalls st' = 6%nat.
Proof.
  split; [exact Qsqrt_pos|].
  assert (H : Forall (fun p => isFirework p = false) (particles smallProgram))
    by (repeat constructor).
  split; [exact H|].
  apply (frame_random_calls Qsqrt Qsqrt_pos smallProgram H).
Defined.

Lemma program_stays_healthy_witness :
  (forall d : Q, 0 < d -> 0 < Qsqrt d)
  /\ (forall k, 0 <= sampleRandom k < 1)
  /\ exists st' painted,
       run Qsqrt sampleCos sampleSin samplePI
         [resize 1024 768; tick; pointer (Mouse.mousemove 100 100); tick;
          resize 400 300; tick; pointer Mouse.mouseleave; tick]
         (loaded (mkCanvas 300 150) sampleRandom) = Some (st', painted)
       /\ healthy st'
       /\ Forall wellPainted painted
       /\ frameCount st' = 4%nat.
Proof.
  split; [exact Qsqrt_pos|]. split; [exact sampleRandom_unit|].
  apply (program_stays_healthy Qsqrt sampleCos sampleSin samplePI Qsqrt_pos
           (mkCanvas 300 150) sampleRandom 1024 768
           [tick; pointer (Mouse.mousemove 100 100); tick;
            resize 400 300; tick; pointer Mouse.mouseleave; tick]
           sampleRandom_unit).
Defined.

Lemma resizeCanvas_regenerates_witness :
  unitDraws (world smallProgram)
  /\ exists st',
       resizeCanvas sampleCos sampleSin samplePI 1024 768 smallProgram
       = Some st'
       /\ length (particles st') = 90%nat
       /\ mouse st' = Mouse.initial.
Proof.
  split; [exact sampleRandom_unit|].
  destruct (resizeCanvas_regenerates sampleCos sampleSin samplePI 1024 768
              smallProgram sampleRandom_unit)
    as (st' & Hs & _ & Hlen & _ & Hm & _).
  exists st'. split; [exact Hs|]. split; [exact Hlen | exact Hm].
Defined.

Lemma overshoot_is_corrected_witness :
  (forall d : Q, 0 < d -> 0 < Qsqrt d)
  /\ pulsing (ambient 4.05 (-1))
  /\ exists p' n',
       update Qsqrt idleWorld Mouse.initial (ambient 4.05 (-1)) 0%nat
       = Some (p', n')
       /\ 1 <= size p' <= 4.
Proof.
  split; [exact Qsqrt_pos|].
  assert (H : pulsing (ambient 4.05 (-1))).
  { unfold pulsing. cbn [ambient size sizeDirection].
    split; [right; reflexivity|]. split; [split; discriminate|].
    split; [intros _; reflexivity|]. intros H. exfalso. revert H. discriminate. }
  split; [exact H|].
  destruct (overshoot_is_corrected Qsqrt Qsqrt_pos idleWorld Mouse.initial
              (ambient 4.05 (-1)) 0%nat H) as (p' & n' & Hu & _ & Hc).
  exists p', n'. split; [exact Hu|]. apply Hc. left. reflexivity.
Defined.

End ProgramExamples.

(* ===================================================================== *)
(** * The edge lines                                                     *)
(* ===================================================================== *)

Section EdgeLines.
Import Population Physics.
Local Open Scope Q_scope.

(** C6.  [update] on the edge lines themselves, on the 800 x 600 canvas
    with the cursor absent and no jitter.  The x test
    ([x <= 0 || x >= width - 1]) bounces a particle that lands exactly
    on [x = 0] or on [x = width - 1]: [vx] is multiplied by -0.9.  The
    y test one line below ([y < 0 || y > height]) does not: a particle
    that lands exactly on [y = 0] or on [y = height] keeps its [vy],
    where the claim has the same rule on both axes. *)
Theorem edge_line_bounces_x_but_not_y :
  (exists p', update Qsqrt idleWorld Mouse.initial landsOnTop 0%nat
              = Some (p', 2%nat)
              /\ y p' == 0 /\ vy p' == -0.499
              /\ ~ vy p' == -0.499 * -0.9)
  /\ (exists p', update Qsqrt idleWorld Mouse.initial landsOnBottom 0%nat
                 = Some (p', 2%nat)
                 /\ y p' == inject_Z (height (canvas idleWorld))
                 /\ vy p' == 0.499
                 /\ ~ vy p' == 0.499 * -0.9)
  /\ (exists p', update Qsqrt idleWorld Mouse.initial landsOnLeft 0%nat
                 = Some (p', 2%nat)
                 /\ x p' == 0 /\ vx p' == -0.499 * -0.9)
  /\ (exists p', update Qsqrt idleWorld Mouse.initial landsOnRight 0%nat
                 = Some (p', 2%nat)
                 /\ x p' == inject_Z (width (canvas idleWorld)) - 1
                 /\ vx p' == 0.499 * -0.9).
Proof.
  split; [|split; [|split]].
  - eexists. split; [vm_compute; reflexivity|].
    split; [reflexivity|]. split; [reflexivity | discriminate].
  - eexists. split; [vm_compute; reflexivity|].
    split; [reflexivity|]. split; [reflexivity | discriminate].
  - eexists. split; [vm_compute; reflexivity|]. split; reflexivity.
  - eexists. split; [vm_compute; reflexivity|]. split; reflexivity.
Qed.

End EdgeLines.
